(** * A shallow embedding of the rope package of fvbommel/sortorder

    The rope sources of the repository mix several revisions.  This file
    follows the revision used by the public API in [src/rope/reader.go]
    and [src/rope/rebalance.go]: nodes are leaves or pointers to
    [concat] structs with the fields [left], [right], [split], [rLen] and
    [treedepth] ([unnamed/part_006]), built by the four-argument [conc]
    and [concMany] of [unnamed/part_003]; leaves follow [src/rope/leaf.go].

    Modelling conventions:
    - int64 values are modelled as [Z], and every int64 [+] or [-] of
      the source wraps into [-2^63, 2^63) through [i64]; the depth type
      [depthT] is a byte, so the depth of a new node wraps modulo 256;
      the cached right-length type [rLenT] is a uint32, and a conversion
      to it keeps the value modulo [2^32].
    - A Go panic (index out of range, failed type assertion, the
      rebalancer's [panic]) is the [Panic] outcome.  [OutOfFuel] only
      bounds the loops of the model and is never reached in the theorems
      below. *)

From Stdlib Require Import String Ascii List ZArith Lia Bool.
From Equations Require Import Equations.
Import ListNotations.
Open Scope Z_scope.

(** ** Outcomes of Go code that may panic *)

Inductive outcome (A : Type) : Type :=
| Ok (a : A)
| Panic
| OutOfFuel.
Arguments Ok {A} a.
Arguments Panic {A}.
Arguments OutOfFuel {A}.

Definition bind {A B} (m : outcome A) (k : A -> outcome B) : outcome B :=
  match m with
  | Ok a => k a
  | Panic => Panic
  | OutOfFuel => OutOfFuel
  end.

Notation "x <- m ;; k" := (bind m (fun x => k))
  (at level 61, m at next level, right associativity).

(** Go slice indexing [arr[i]]: panics out of range. *)
Definition index {A} (arr : list A) (i : Z) : outcome A :=
  if (0 <=? i) && (i <? Z.of_nat (length arr)) then
    match nth_error arr (Z.to_nat i) with
    | Some x => Ok x
    | None => Panic
    end
  else Panic.

(** ** Nodes *)

(** [node] is the Go interface.  [leaf] is [type leaf string]; [concat]
    is a [*concat] pointer with its fields [left], [right], [split],
    [rLen] and [treedepth]; [rope_node n] is a [Rope{n}] value used as a
    node (a [Rope] embeds [node], so [Rope.Concat] passes its receiver to
    [concMany] as a node): its methods other than [WriteTo] are those of
    the embedded node. *)
Inductive node : Type :=
| leaf (s : string)
| concat (left right : node) (split : Z) (rLen : Z) (treedepth : Z)
| rope_node (n : node).

(** A [Rope] wraps an optional root ([None] is the nil node). *)
Definition Rope := option node.

(** [var emptyNode = node(leaf(""))] *)
Definition emptyNode : node := leaf "".
(** [var emptyRope = Rope{emptyNode}] *)
Definition emptyRope : Rope := Some emptyNode.

(** [n == emptyNode]: interface comparison, true exactly for a leaf
    holding the empty string. *)
Definition is_emptyNode (n : node) : bool :=
  match n with
  | leaf s => String.eqb s ""
  | _ => false
  end.

(** Go int64 [+] and [-]: the exact result wrapped into [-2^63, 2^63). *)
Definition i64 (z : Z) : Z := (z + 2 ^ 63) mod 2 ^ 64 - 2 ^ 63.

(** [^rLenT(0)], the largest uint32. *)
Definition rLen_max : Z := 2 ^ 32 - 1.

(** [depth()]; [leaf] is at depth 0. *)
Fixpoint depth (n : node) : Z :=
  match n with
  | leaf _ => 0
  | concat _ _ _ _ d => d
  | rope_node m => depth m
  end.

(** [length()]: the concat length method is the int64 sum
    [c.split + c.rLength()], and [rLength] uses the cached [rLen] when
    positive. *)
Fixpoint length (n : node) : Z :=
  match n with
  | leaf s => Z.of_nat (String.length s)
  | concat _ r sp rl _ => i64 (sp + (if 0 <? rl then rl else length r))
  | rope_node m => length m
  end.

(** [WriteTo]: the content written to the sink, left then right. *)
Fixpoint write (n : node) : string :=
  match n with
  | leaf s => s
  | concat l r _ _ _ => write l ++ write r
  | rope_node m => write m
  end.

(** [Rope.String] / [Rope.Bytes] / [Rope.WriteTo]: a nil root writes
    nothing. *)
Definition materialize (r : Rope) : string :=
  match r with
  | None => ""
  | Some n => write n
  end.

(** [Rope.Len] *)
Definition Len (r : Rope) : Z :=
  match r with
  | None => 0
  | Some n => length n
  end.

(** [New(arg)] *)
Definition New (arg : string) : Rope :=
  if Nat.eqb (String.length arg) 0 then emptyRope else Some (leaf arg).

(** ** Concatenation ([unnamed/part_003]) *)

(** [conc(lhs, rhs, lhsLength, rhsLength)]; the depth is a [depthT]
    (byte) computed as [depth + 1], and a right length above the uint32
    range is cached as 0. *)
Definition conc (lhs rhs : node) (lhsLength rhsLength : Z) : node :=
  if is_emptyNode lhs then rhs
  else if is_emptyNode rhs then lhs
  else
    let d := Z.max (depth lhs) (depth rhs) in
    let lhsLength := if lhsLength <=? 0 then length lhs else lhsLength in
    let rhsLength := if rhsLength <=? 0 then length rhs else rhsLength in
    let rhsLength := if rhsLength >? rLen_max then 0 else rhsLength in
    concat lhs rhs lhsLength (rhsLength mod 2 ^ 32) ((d + 1) mod 256).

(** [concMany(first, others...)]: [first] may be nil; the list is split
    at [len(others)/2]. *)
Equations? concMany (first : option node) (others : list node) : node
  by wf (List.length others) lt :=
concMany first [] := match first with Some f => f | None => emptyNode end;
concMany first (o :: os) :=
  let split := Nat.div (List.length (o :: os)) 2 in
  conc (concMany first (firstn split (o :: os)))
       (concMany (Some (nth split (o :: os) emptyNode))
                 (skipn (S split) (o :: os)))
       0 0.
Proof.
  all: rewrite ?length_firstn, ?length_skipn; cbn [List.length].
  - pose proof (Nat.div_lt (S (List.length os)) 2 ltac:(lia) ltac:(lia)) as H.
    change (Nat.div (S (List.length os)) 2) with split in H. lia.
  - lia.
Qed.

(** The node list of [Rope.Concat]: nil roots are dropped. *)
Fixpoint rope_nodes (rhs : list Rope) : list node :=
  match rhs with
  | [] => []
  | None :: rest => rope_nodes rest
  | Some n :: rest => n :: rope_nodes rest
  end.

(** [for r.node == nil && len(rhs) > 0 { r = rhs[0]; rhs = rhs[1:] }] *)
Fixpoint skip_nil (r : Rope) (rhs : list Rope) : Rope * list Rope :=
  match r, rhs with
  | None, x :: rest => skip_nil x rest
  | _, _ => (r, rhs)
  end.

(** [Rope.Concat(rhs...)]: the receiver is passed to [concMany] as a
    node, i.e. as a [Rope] value. *)
Definition Concat (r : Rope) (rhs : list Rope) : Rope :=
  let '(r, rhs) := skip_nil r rhs in
  match rhs with
  | [] => r
  | _ :: _ =>
      match r with
      | None => r
      | Some n => Some (concMany (Some (rope_node n)) (rope_nodes rhs))
      end
  end.

(** ** Prefix and postfix drops *)

(** Go string slicing [l[start:]] and [l[:end]] for in-range indices. *)
Definition str_from (k : Z) (s : string) : string :=
  substring (Z.to_nat k) (String.length s - Z.to_nat k) s.
Definition str_upto (k : Z) (s : string) : string :=
  substring 0 (Z.to_nat k) s.

(** [dropPrefix] of [leaf.go] and of [unnamed/part_006]. *)
Fixpoint dropPrefix (start : Z) (n : node) : node :=
  match n with
  | leaf s =>
      if start >=? Z.of_nat (String.length s) then emptyNode
      else if start <=? 0 then n
      else leaf (str_from start s)
  | concat l r sp rl _ =>
      if start <=? 0 then n
      else if start <? sp then conc (dropPrefix start l) r (i64 (sp - start)) rl
      else dropPrefix (i64 (start - sp)) r
  | rope_node m => dropPrefix start m
  end.

(** [dropPostfix] of [leaf.go] and of [unnamed/part_006]. *)
Fixpoint dropPostfix (end_ : Z) (n : node) : node :=
  match n with
  | leaf s =>
      if end_ >=? Z.of_nat (String.length s) then n
      else if end_ <=? 0 then emptyNode
      else leaf (str_upto end_ s)
  | concat l r sp rl _ =>
      if end_ <=? 0 then emptyNode
      else if end_ <=? sp then dropPostfix end_ l
      else if end_ >=? i64 (sp + (if 0 <? rl then rl else length r)) then n
      else
        let end_ := i64 (end_ - sp) in
        conc l (dropPostfix end_ r) sp end_
  | rope_node m => dropPostfix end_ m
  end.

(** [Rope.DropPrefix] ([src/rope/reader.go]). *)
Definition DropPrefix (r : Rope) (start : Z) : Rope :=
  match r with
  | None => r
  | Some n => if start =? 0 then r else Some (dropPrefix start n)
  end.

(** [Rope.DropPostfix] ([src/rope/reader.go]): the body calls the node's
    [dropPrefix] method, as written in the source. *)
Definition DropPostfix (r : Rope) (end_ : Z) : Rope :=
  match r with
  | None => r
  | Some n => Some (dropPrefix end_ n)
  end.

(** [Rope.Slice] ([src/rope/reader.go]). *)
Definition Slice (r : Rope) (start end_ : Z) : Rope :=
  let start := if start <? 0 then 0 else start in
  if start >=? end_ then emptyRope
  else DropPrefix (DropPostfix r end_) start.

(** ** The Fibonacci cache ([src/rope/rebalance.go]) *)

(** The initial value of the global [fibCache]. *)
Definition fibCache0 : list Z :=
  [1; 2; 3; 5; 8; 13; 21; 34; 55; 89; 144; 233; 377; 610; 987;
   1597; 2584; 4181; 6765; 10946; 17711; 28657; 46368; 75025; 121393;
   196418; 317811; 514229; 832040].

(** [extendFibs(N)]: appends the int64 sum [a+b] while the last element
    is [< N]; the loop is bounded by [fuel].  The cache is the state
    passed in and returned. *)
Fixpoint extendFibs_loop (fuel : nat) (a b N : Z) (cache : list Z)
  : outcome (list Z) :=
  if b <? N then
    match fuel with
    | O => OutOfFuel
    | S f => extendFibs_loop f b (i64 (a + b)) N (cache ++ [i64 (a + b)])
    end
  else Ok cache.

Definition extendFibs (cache : list Z) (N : Z) : outcome (list Z) :=
  let n := Z.of_nat (List.length cache) in
  a <- index cache (n - 2) ;;
  b <- index cache (n - 1) ;;
  extendFibs_loop (Z.to_nat N) a b N cache.

(** [getFibCache(N)]: tests [fibCache[len(fibCache)] < N], then extends
    the cache if needed; returns the (new) cache. *)
Definition getFibCache (cache : list Z) (N : Z) : outcome (list Z) :=
  last <- index cache (Z.of_nat (List.length cache)) ;;
  if last <? N then extendFibs cache N else Ok cache.

(** [binSearch(N, arr)]: the loop [for end-start > 1], bounded by
    [fuel]; [arr[mid]] is a checked Go index. *)
Fixpoint binSearch_loop (fuel : nat) (N : Z) (arr : list Z) (start end_ : Z)
  : outcome Z :=
  if end_ - start >? 1 then
    match fuel with
    | O => OutOfFuel
    | S f =>
        let mid := (start + end_) / 2 in
        elt <- index arr mid ;;
        if elt <? N then binSearch_loop f N arr mid end_
        else if N <? elt then binSearch_loop f N arr start mid
        else Ok mid
    end
  else Ok end_.

Definition binSearch (N : Z) (arr : list Z) : outcome Z :=
  binSearch_loop (List.length arr) N arr (-1) (Z.of_nat (List.length arr)).

(** [reverseFib(N)] *)
Definition reverseFib (cache : list Z) (N : Z) : outcome Z :=
  fibs <- getFibCache cache N ;;
  binSearch N fibs.

(** The comparison of [isBalanced] once the table [fibs] is obtained:
    [int(r.node.depth()) <= reverseFib(len) - 2]. *)
Definition balanced_by (fibs : list Z) (r : Rope) : outcome bool :=
  i <- binSearch (Len r) fibs ;;
  Ok (match r with Some n => depth n | None => 0 end <=? i - 2).

(** [Rope.isBalanced]: [reverseFib] inlined as [getFibCache] followed by
    [binSearch]. *)
Definition isBalanced (cache : list Z) (r : Rope) : outcome bool :=
  match r with
  | None => Ok true
  | Some n =>
      if is_emptyNode n then Ok true
      else fibs <- getFibCache cache (Len r) ;; balanced_by fibs r
  end.

(** ** The rebalancer ([src/rope/rebalance.go]) *)

(** [var Debug = true] *)
Definition Debug : bool := true.

(** Modelled from the spec: the [walkLeaves] method of [leaf], which is
    not in the sources ("walkLeaves calls f on each leaf of the graph in
    order"): a leaf calls [f] on itself.  The concat method walks the left
    then the right subtree ([unnamed/part_006]); a [Rope] value uses the
    method of its embedded node.  [leaves n] lists the leaves passed to
    [f], in call order. *)
Fixpoint leaves (n : node) : list string :=
  match n with
  | leaf s => [s]
  | concat l r _ _ _ => leaves l ++ leaves r
  | rope_node m => leaves m
  end.

(** A scratch slot [B{n, len}]; [None] is a nil node. *)
Definition B : Type := (option node * Z)%type.

(** Go assignment [arr[i] = v]: panics out of range. *)
Definition set_index {A} (arr : list A) (i : Z) (v : A) : outcome (list A) :=
  if (0 <=? i) && (i <? Z.of_nat (List.length arr)) then
    Ok (firstn (Z.to_nat i) arr ++ v :: skipn (S (Z.to_nat i)) arr)
  else Panic.

(** The inner loop [for i := bucket; i >= 0; i--] with its body, which
    reads and clears [scratch[bucket]] (not [scratch[i]]); [iters] is the
    number of iterations, [bucket + 1]. *)
Fixpoint merge_loop (iters : nat) (bucket : Z) (scratch : list B)
  (n : node) (nLen : Z) : outcome (list B * node * Z) :=
  match iters with
  | O => Ok (scratch, n, nLen)
  | S k =>
      b <- index scratch bucket ;;
      match fst b with
      | Some bn =>
          let n := conc n bn nLen (snd b) in
          let nLen := i64 (nLen + snd b) in
          scratch <- set_index scratch bucket (None, snd b) ;;
          merge_loop k bucket scratch n nLen
      | None => merge_loop k bucket scratch n nLen
      end
  end.

(** The callback passed to [walkLeaves], applied to one leaf. *)
Definition visit_leaf (debug : bool) (fibs : list Z) (scratch : list B)
  (l : string) : outcome (list B) :=
  let nLen := length (leaf l) in
  bucket <- binSearch nLen fibs ;;
  res <- merge_loop (S (Z.to_nat bucket)) bucket scratch (leaf l) nLen ;;
  let '(scratch, n, nLen) := res in
  chk <- (if debug then
            b <- binSearch nLen fibs ;;
            (if b =? bucket then Ok tt else Panic)
          else Ok tt) ;;
  set_index scratch bucket (Some n, nLen).

Fixpoint walk_leaves (debug : bool) (fibs : list Z) (scratch : list B)
  (ls : list string) : outcome (list B) :=
  match ls with
  | [] => Ok scratch
  | l :: rest =>
      scratch <- visit_leaf debug fibs scratch l ;;
      walk_leaves debug fibs scratch rest
  end.

(** The final [for _, b := range scratch] fold into [nw]. *)
Fixpoint fold_slots (nw : B) (slots : list B) : B :=
  match slots with
  | [] => nw
  | b :: rest =>
      match fst b with
      | None => fold_slots nw rest
      | Some bn =>
          match fst nw with
          | None => fold_slots b rest
          | Some wn => fold_slots (Some (conc bn wn (snd b) (snd nw)), i64 (snd nw + snd b)) rest
          end
      end
  end.

(** The body of [Rebalance] after [fibs := getFibCache(len)], with the
    value of [Debug] as a parameter.  The final [if nw.n == r.node
    { return r }] returns the same root either way, so the result is
    [Rope{nw.n}]; on a nil root, [r.node.walkLeaves] is a nil interface
    method call. *)
Definition rebalance_with (debug : bool) (fibs : list Z) (r : Rope)
  : outcome Rope :=
  let len := Len r in
  sz <- binSearch len fibs ;;
  let scratch := repeat ((None, 0) : B) (S (Z.to_nat sz)) in
  match r with
  | None => Panic
  | Some root =>
      scratch <- walk_leaves debug fibs scratch (leaves root) ;;
      Ok (fst (fold_slots (None, 0) scratch))
  end.

(** [Rope.Rebalance] *)
Definition Rebalance (cache : list Z) (r : Rope) : outcome Rope :=
  fibs <- getFibCache cache (Len r) ;;
  rebalance_with Debug fibs r.

(** ** The streaming reader ([src/rope/reader.go]) *)

(** The [Reader] struct: [stack] holds [*concat] nodes, innermost last. *)
Record Reader : Type := mkReader {
  stack : list node;
  cur : string;
  pos : Z
}.

(** [pushSubtree(n)]: [n.(leaf)], else the assertion to the concat pointer type,
    which panics on any other dynamic type. *)
Fixpoint pushSubtree (r : Reader) (n : node) : outcome Reader :=
  match n with
  | leaf s => Ok (mkReader (stack r) s 0)
  | concat l _ _ _ _ => pushSubtree (mkReader (stack r ++ [n]) (cur r) (pos r)) l
  | rope_node _ => Panic
  end.

(** [NewReader(rope)] *)
Definition NewReader (rope : Rope) : outcome Reader :=
  match rope with
  | None => Ok (mkReader [] "" 0)
  | Some n => pushSubtree (mkReader [] "" 0) n
  end.

(** [nextNode()]: [r.stack = r.stack[:len(r.stack)-1]] panics on an
    empty stack; then [pushSubtree(r.stack[len(r.stack)-1])]. *)
Definition nextNode (r : Reader) : outcome Reader :=
  match stack r with
  | [] => Panic
  | _ :: _ =>
      let st := removelast (stack r) in
      let r := mkReader st (cur r) (pos r) in
      match st with
      | [] => Ok r
      | _ :: _ => pushSubtree r (last st emptyNode)
      end
  end.

(** The result of one [Read]: [n] bytes copied, or [0, io.EOF]. *)
Inductive read_result : Type :=
| RData (bytes : string)
| REOF.

(** The loop [for r.pos == len(r.cur)] of [Read], bounded by [fuel]. *)
Fixpoint read_loop (fuel : nat) (k : nat) (r : Reader)
  : outcome (read_result * Reader) :=
  if pos r =? Z.of_nat (String.length (cur r)) then
    match fuel with
    | O => OutOfFuel
    | S f =>
        r <- nextNode r ;;
        match stack r with
        | [] => Ok (REOF, r)
        | _ :: _ => read_loop f k r
        end
    end
  else
    let n := Nat.min k (String.length (cur r) - Z.to_nat (pos r)) in
    Ok (RData (substring (Z.to_nat (pos r)) n (cur r)),
        mkReader (stack r) (cur r) (pos r + Z.of_nat n)).

(** [Read(p)] with a buffer of [k] bytes. *)
Definition Read (k : nat) (r : Reader) : outcome (read_result * Reader) :=
  read_loop (S (List.length (stack r))) k r.

(** Repeated [Read] calls with a [k]-byte buffer until the first
    [io.EOF], at most [fuel] calls: the bytes read. *)
Fixpoint drain (fuel : nat) (k : nat) (r : Reader) : outcome string :=
  match fuel with
  | O => OutOfFuel
  | S f =>
      res <- Read k r ;;
      match res with
      | (REOF, _) => Ok ""%string
      | (RData s, r) => rest <- drain f k r ;; Ok (s ++ rest)%string
      end
  end.

(** Reading a whole rope: [NewReader] then [drain]. *)
Definition read_all (fuel : nat) (k : nat) (rope : Rope) : outcome string :=
  r <- NewReader rope ;; drain fuel k r.

(** [n] successive [Read] calls with a [k]-byte buffer: their results,
    in order. *)
Fixpoint reads (n : nat) (k : nat) (r : Reader) : outcome (list read_result) :=
  match n with
  | O => Ok []
  | S n' =>
      res <- Read k r ;;
      rest <- reads n' k (snd res) ;;
      Ok (fst res :: rest)
  end.

(** The bytes returned by a sequence of [Read] results. *)
Fixpoint read_data (out : list read_result) : string :=
  match out with
  | [] => ""
  | RData s :: rest => s ++ read_data rest
  | REOF :: rest => read_data rest
  end.

(** ** Invariants and inputs used by the properties *)

(** Split/length consistency of a node: every concat caches the exact
    length of its left subtree in [split], and in [rLen] either 0 or the
    exact length of its right subtree. *)
Fixpoint wf (n : node) : Prop :=
  match n with
  | leaf _ => True
  | concat l r sp rl _ => wf l /\ wf r /\ sp = length l /\ (rl = 0 \/ rl = length r)
  | rope_node m => wf m
  end.

Definition wf_rope (r : Rope) : Prop :=
  match r with
  | None => True
  | Some n => wf n
  end.

(** The content of a node fits in an int64 length: at most [2^63 - 1]
    bytes. *)
Definition fits (n : node) : Prop :=
  Z.of_nat (String.length (write n)) < 2 ^ 63.

Definition fits_rope (r : Rope) : Prop :=
  Z.of_nat (String.length (materialize r)) < 2 ^ 63.

(** A scratch slot of [Rebalance] holds a consistent node that fits,
    with its exact length. *)
Definition slot_ok (b : B) : Prop :=
  match fst b with
  | Some n => wf n /\ fits n /\ snd b = length n
  | None => True
  end.

(** [k] successive [r = r.Concat(New("a"))]. *)
Fixpoint append_a (k : nat) (r : Rope) : Rope :=
  match k with
  | O => r
  | S k' => append_a k' (Concat r [New "a"])
  end.

(** [k] successive [r = r.Concat(r)]: both operands share one root. *)
Fixpoint double_self (k : nat) (r : Rope) : Rope :=
  match k with
  | O => r
  | S k' => double_self k' (Concat r [r])
  end.

(** [New("a")] concatenated with itself 63 times: a rope of [2^63]
    bytes whose root is a chain of 63 shared concats. *)
Definition r63 : Rope := double_self 63 (New "a").

(** [r63.Concat(New("abcde"))] *)
Definition m63 : Rope := Concat r63 [New "abcde"].

(** The root of [New("a")] concatenated 255 more times with [New("a")]:
    a node of depth 255. *)
Definition deep255 : node :=
  match append_a 255 (New "a") with
  | Some n => n
  | None => emptyNode
  end.

(** Strictly increasing, checked on adjacent elements. *)
Fixpoint strictly_increasing (l : list Z) : bool :=
  match l with
  | x :: ((y :: _) as t) => (x <? y) && strictly_increasing t
  | _ => true
  end.

(** The invariant of the [binSearch] loop, [arr[start] < N < arr[end]],
    over the real elements up to [start] and from [end] on. *)
Definition bs_inv (arr : list Z) (N : Z) (s e : Z) : Prop :=
  -1 <= s < e /\ e <= Z.of_nat (List.length arr) /\
  (forall j, 0 <= j <= s -> nth (Z.to_nat j) arr 0 < N) /\
  (forall j, e <= j < Z.of_nat (List.length arr) -> N < nth (Z.to_nat j) arr 0).

(** The expected result of [binSearch]: the least index whose element is
    [>= N], or [len(arr)]. *)
Definition bs_result (arr : list Z) (N : Z) (i : Z) : Prop :=
  0 <= i <= Z.of_nat (List.length arr) /\
  (forall j, 0 <= j < i -> nth (Z.to_nat j) arr 0 < N) /\
  (i < Z.of_nat (List.length arr) -> N <= nth (Z.to_nat i) arr 0).

(** The concatenation of a list of strings, in order. *)
Fixpoint strings_concat (l : list string) : string :=
  match l with
  | [] => ""
  | s :: t => s ++ strings_concat t
  end.

(** Fibonacci-like: from the third element on, each element is the sum of
    the two before it. *)
Fixpoint fib_like (l : list Z) : bool :=
  match l with
  | x :: ((y :: z :: _) as t) => (z =? x + y) && fib_like t
  | _ => true
  end.

(** Depth consistency of a node: every concat caches the exact depth
    [1 + max] of its children, and that depth fits in [depthT] without
    wrapping. *)
Fixpoint dwf (n : node) : Prop :=
  match n with
  | leaf _ => True
  | concat l r _ _ d => dwf l /\ dwf r /\ d = 1 + Z.max (depth l) (depth r) /\ d <= 255
  | rope_node m => dwf m
  end.

(** The length a scratch slot contributes: its [len] when it holds a
    node. *)
Definition contrib (b : B) : Z :=
  match fst b with Some _ => snd b | None => 0 end.

(** The total length held in the scratch slots. *)
Fixpoint slots_len (l : list B) : Z :=
  match l with
  | [] => 0
  | b :: rest => contrib b + slots_len rest
  end.

(** The total length of a list of leaves. *)
Fixpoint leaves_len (ls : list string) : Z :=
  match ls with
  | [] => 0
  | l :: rest => Z.of_nat (String.length l) + leaves_len rest
  end.

(** * Properties *)

(** Turns boolean comparisons on [Z] in the context into propositions. *)
Ltac zbool :=
  repeat match goal with
  | H : (_ >? _) = _ |- _ => rewrite Z.gtb_ltb in H
  | H : (_ >=? _) = _ |- _ => rewrite Z.geb_leb in H
  | H : (_ <? _) = true |- _ => apply Z.ltb_lt in H
  | H : (_ <? _) = false |- _ => apply Z.ltb_ge in H
  | H : (_ <=? _) = true |- _ => apply Z.leb_le in H
  | H : (_ <=? _) = false |- _ => apply Z.leb_gt in H
  | H : (_ =? _) = true |- _ => apply Z.eqb_eq in H
  | H : (_ =? _) = false |- _ => apply Z.eqb_neq in H
  end.

(** ** Go indexing *)

Lemma index_in_range {A} (arr : list A) (i : Z) (d : A) :
  0 <= i < Z.of_nat (List.length arr) ->
  index arr i = Ok (nth (Z.to_nat i) arr d).
Proof.
  intros Hi. unfold index.
  replace ((0 <=? i) && (i <? Z.of_nat (List.length arr))) with true
    by (symmetry; apply andb_true_iff; split; apply Z.leb_le || apply Z.ltb_lt; lia).
  rewrite (nth_error_nth' arr d) by lia. reflexivity.
Qed.

Lemma index_out_of_range {A} (arr : list A) (i : Z) :
  ~ (0 <= i < Z.of_nat (List.length arr)) -> index arr i = Panic.
Proof.
  intros Hi. unfold index.
  destruct (0 <=? i) eqn:E1, (i <? Z.of_nat (List.length arr)) eqn:E2;
    simpl; try reflexivity.
  apply Z.leb_le in E1. apply Z.ltb_lt in E2. lia.
Qed.

(** [fibCache[len(fibCache)]] is always out of range, so [getFibCache]
    panics whatever the cache and [N]. *)
Lemma getFibCache_panics (cache : list Z) (N : Z) :
  getFibCache cache N = Panic.
Proof.
  unfold getFibCache. rewrite index_out_of_range by lia. reflexivity.
Qed.

Lemma Rebalance_panics (cache : list Z) (r : Rope) :
  Rebalance cache r = Panic.
Proof. unfold Rebalance. rewrite getFibCache_panics. reflexivity. Qed.

Lemma reverseFib_panics (cache : list Z) (N : Z) :
  reverseFib cache N = Panic.
Proof. unfold reverseFib. rewrite getFibCache_panics. reflexivity. Qed.

(** ** Binary search *)

Lemma strictly_increasing_nth (l : list Z) :
  strictly_increasing l = true ->
  forall i j, (i < j < List.length l)%nat -> nth i l 0 < nth j l 0.
Proof.
  induction l as [|x t IH]; intros Hs i j Hij; simpl in Hij; [lia|].
  destruct t as [|y t']; simpl in Hij; [lia|].
  simpl in Hs. apply andb_true_iff in Hs as [Hxy Hs]. apply Z.ltb_lt in Hxy.
  specialize (IH Hs).
  destruct i as [|i], j as [|j]; try lia.
  - simpl nth at 1. change (nth (S j) (x :: y :: t') 0) with (nth j (y :: t') 0).
    destruct j as [|j]; [simpl; lia|].
    pose proof (IH 0%nat (S j) ltac:(simpl; lia)). simpl in *. lia.
  - change (nth (S i) (x :: y :: t') 0) with (nth i (y :: t') 0).
    change (nth (S j) (x :: y :: t') 0) with (nth j (y :: t') 0).
    apply IH. simpl. lia.
Qed.

Lemma strictly_increasing_mono (l : list Z) :
  strictly_increasing l = true ->
  forall i j, (i <= j < List.length l)%nat -> nth i l 0 <= nth j l 0.
Proof.
  intros Hs i j Hij.
  destruct (Nat.eq_dec i j) as [->|Hne]; [lia|].
  pose proof (strictly_increasing_nth l Hs i j ltac:(lia)). lia.
Qed.

Section BinSearch.
Variable arr : list Z.
Variable N : Z.
Hypothesis Hinc : strictly_increasing arr = true.

Lemma binSearch_loop_spec (fuel : nat) :
  forall s e, bs_inv arr N s e -> (Z.of_nat fuel >= e - s - 1) ->
  exists i, binSearch_loop fuel N arr s e = Ok i /\ bs_result arr N i.
Proof.
  induction fuel as [|f IH]; intros s e [Hse [HeL [Hlo Hhi]]] Hfuel.
  - simpl. destruct (e - s >? 1) eqn:E; [zbool; lia|].
    exists e. split; [reflexivity|].
    zbool. repeat split; try lia.
    + intros j Hj. apply Hlo. lia.
    + intros He. apply Z.lt_le_incl, Hhi. lia.
  - simpl. destruct (e - s >? 1) eqn:E.
    + zbool.
      set (mid := (s + e) / 2).
      assert (Hmid : s < mid < e).
      { unfold mid. pose proof (Z.div_mod (s + e) 2 ltac:(lia)).
        pose proof (Z.mod_pos_bound (s + e) 2 ltac:(lia)). lia. }
      rewrite (index_in_range arr mid 0) by (lia).
      simpl. set (am := nth (Z.to_nat mid) arr 0).
      destruct (am <? N) eqn:E1; [|destruct (N <? am) eqn:E2].
      * apply Z.ltb_lt in E1. apply IH; [|lia].
        repeat split; try lia.
        -- intros j Hj. destruct (Z_le_gt_dec j s); [apply Hlo; lia|].
           pose proof (strictly_increasing_mono arr Hinc (Z.to_nat j) (Z.to_nat mid)
                         ltac:(lia)).
           unfold am in *. lia.
        -- exact Hhi.
      * apply Z.ltb_lt in E2. apply IH; [|lia].
        repeat split; try lia.
        -- exact Hlo.
        -- intros j Hj. destruct (Z_le_gt_dec e j); [apply Hhi; lia|].
           pose proof (strictly_increasing_mono arr Hinc (Z.to_nat mid) (Z.to_nat j)
                         ltac:(lia)).
           unfold am in *. lia.
      * apply Z.ltb_ge in E1. apply Z.ltb_ge in E2.
        exists mid. split; [reflexivity|]. repeat split; try lia.
        intros j Hj.
        pose proof (strictly_increasing_nth arr Hinc (Z.to_nat j) (Z.to_nat mid)
                      ltac:(lia)).
        unfold am in *. lia.
    + exists e. split; [reflexivity|].
      zbool. repeat split; try lia.
      * intros j Hj. apply Hlo. lia.
      * intros He. apply Z.lt_le_incl, Hhi. lia.
Qed.

(** [binSearch] terminates, indexes [arr] only in range (it does not
    panic) and returns the least index [i] with [arr[i] >= N], or
    [len(arr)]. *)
Lemma binSearch_spec :
  exists i, binSearch N arr = Ok i /\ bs_result arr N i.
Proof.
  unfold binSearch. apply binSearch_loop_spec.
  - unfold bs_inv. repeat split; try lia.
  - lia.
Qed.
End BinSearch.

(** ** The balance test *)

(** Once the table [fibs] is available, the comparison of [isBalanced]
    holds exactly when [fibs[depth+1] < length]. *)
Lemma balanced_by_iff (fibs : list Z) (n : node) :
  strictly_increasing fibs = true -> 0 <= depth n ->
  balanced_by fibs (Some n) =
    Ok (Nat.ltb (Z.to_nat (depth n + 1)) (List.length fibs)
        && (nth (Z.to_nat (depth n + 1)) fibs 0 <? length n)).
Proof.
  intros Hinc Hd.
  destruct (binSearch_spec fibs (length n) Hinc) as [i [Hbs [Hrange [Hlo Hhi]]]].
  unfold balanced_by. simpl Len. rewrite Hbs. simpl. f_equal.
  set (k := Z.to_nat (depth n + 1)).
  destruct (depth n <=? i - 2) eqn:E1; zbool.
  - symmetry. apply andb_true_iff. split.
    + apply Nat.ltb_lt. lia.
    + apply Z.ltb_lt. unfold k. apply Hlo. lia.
  - symmetry. destruct (Nat.ltb k (List.length fibs)) eqn:E2; [|reflexivity].
    apply Nat.ltb_lt in E2. simpl. apply Z.ltb_ge.
    assert (Hi : i < Z.of_nat (List.length fibs)) by (unfold k in E2; lia).
    specialize (Hhi Hi).
    pose proof (strictly_increasing_mono fibs Hinc (Z.to_nat i) k
                  ltac:(unfold k in *; lia)).
    lia.
Qed.

(** ** Strings *)

Lemma string_length_app (s1 s2 : string) :
  String.length (s1 ++ s2) = (String.length s1 + String.length s2)%nat.
Proof. induction s1; simpl; auto. Qed.

Lemma string_app_nil_r (s : string) : (s ++ "")%string = s.
Proof. induction s; simpl; congruence. Qed.

Lemma string_app_assoc (s1 s2 s3 : string) :
  (s1 ++ (s2 ++ s3))%string = ((s1 ++ s2) ++ s3)%string.
Proof. induction s1; simpl; congruence. Qed.

Lemma substring_length (s : string) : forall n m,
  (n + m <= String.length s)%nat -> String.length (substring n m s) = m.
Proof.
  induction s as [|c s IH]; intros n m H; simpl in *.
  - assert (n = 0%nat /\ m = 0%nat) as [-> ->] by lia. reflexivity.
  - destruct n as [|n], m as [|m]; simpl; try reflexivity;
      [rewrite IH by lia; reflexivity | apply IH; lia ..].
Qed.

(** ** Nodes and [conc] *)

Lemma is_emptyNode_true (n : node) :
  is_emptyNode n = true -> n = emptyNode.
Proof.
  destruct n; simpl; try discriminate.
  intros H. apply String.eqb_eq in H. subst. reflexivity.
Qed.

Lemma write_conc (lhs rhs : node) (hl hr : Z) :
  write (conc lhs rhs hl hr) = (write lhs ++ write rhs)%string.
Proof.
  unfold conc.
  destruct (is_emptyNode lhs) eqn:E1.
  { apply is_emptyNode_true in E1. subst. reflexivity. }
  destruct (is_emptyNode rhs) eqn:E2.
  { apply is_emptyNode_true in E2. subst. simpl. rewrite string_app_nil_r. reflexivity. }
  reflexivity.
Qed.

(** ** List membership *)

Lemma In_firstn {A} (x : A) (k : nat) (l : list A) : In x (firstn k l) -> In x l.
Proof.
  intros H. rewrite <- (firstn_skipn k l). apply in_or_app. left. exact H.
Qed.

Lemma In_skipn {A} (x : A) (k : nat) (l : list A) : In x (skipn k l) -> In x l.
Proof.
  intros H. rewrite <- (firstn_skipn k l). apply in_or_app. right. exact H.
Qed.

(** ** Go slice updates *)

Lemma index_In {A} (arr : list A) (i : Z) (x : A) :
  index arr i = Ok x -> In x arr.
Proof.
  unfold index. destruct ((0 <=? i) && (i <? Z.of_nat (List.length arr))); [|discriminate].
  destruct (nth_error arr (Z.to_nat i)) eqn:E; [|discriminate].
  intros H. injection H as <-. eapply nth_error_In. exact E.
Qed.

Lemma set_index_In {A} (arr arr' : list A) (i : Z) (v x : A) :
  set_index arr i v = Ok arr' -> In x arr' -> x = v \/ In x arr.
Proof.
  unfold set_index. destruct ((0 <=? i) && (i <? Z.of_nat (List.length arr))); [|discriminate].
  intros H. injection H as <-. intros Hx.
  apply in_app_or in Hx as [Hx|[Hx|Hx]].
  - right. eapply In_firstn. exact Hx.
  - left. symmetry. exact Hx.
  - right. exact (In_skipn x (S (Z.to_nat i)) arr Hx).
Qed.

Lemma set_index_ok (arr arr' : list B) (i : Z) (v : B) :
  (forall b, In b arr -> slot_ok b) -> slot_ok v ->
  set_index arr i v = Ok arr' -> forall b, In b arr' -> slot_ok b.
Proof.
  intros Harr Hv Hset b Hb.
  destruct (set_index_In arr arr' i v b Hset Hb) as [->|Hin]; auto.
Qed.

(** ** Depth of balanced concatenation *)

Lemma depth_conc_bound (lhs rhs : node) :
  0 <= depth lhs -> 0 <= depth rhs ->
  0 <= depth (conc lhs rhs 0 0) <= 1 + Z.max (depth lhs) (depth rhs).
Proof.
  intros Hl Hr. unfold conc.
  destruct (is_emptyNode lhs); [lia|].
  destruct (is_emptyNode rhs); [lia|].
  cbn [depth]. set (d := Z.max (depth lhs) (depth rhs) + 1).
  pose proof (Z.mod_pos_bound d 256 ltac:(lia)).
  pose proof (Z.mod_le d 256 ltac:(unfold d; lia) ltac:(lia)).
  unfold d in *. lia.
Qed.

Lemma concMany_depth (k : nat) : forall first others,
  (S (List.length others) <= 2 ^ k)%nat ->
  match first with Some f => depth f = 0 | None => True end ->
  (forall x, In x others -> depth x = 0) ->
  0 <= depth (concMany first others) <= Z.of_nat k.
Proof.
  induction k as [|k IH]; intros first others Hsize Hf Ho.
  - destruct others as [|o os]; simpl in Hsize; [|pose proof (Nat.pow_0_r 2); lia].
    simp concMany. destruct first; simpl; lia.
  - destruct others as [|o os].
    { simp concMany. destruct first; simpl; lia. }
    simp concMany. cbn zeta.
    set (m := List.length (o :: os)) in *.
    set (q := Nat.div m 2).
    assert (Hm : m = (2 * q + m mod 2)%nat) by (apply Nat.div_mod_eq).
    pose proof (Nat.mod_upper_bound m 2 ltac:(lia)).
    rewrite Nat.pow_succ_r' in Hsize.
    assert (Hq : (q < m)%nat) by (unfold m in *; simpl in *; lia).
    assert (Hl : 0 <= depth (concMany first (firstn q (o :: os))) <= Z.of_nat k).
    { apply IH; [| exact Hf |].
      - rewrite length_firstn. fold m. lia.
      - intros x Hx. apply Ho. eapply In_firstn. exact Hx. }
    assert (Hr : 0 <= depth (concMany (Some (nth q (o :: os) emptyNode))
                               (skipn (S q) (o :: os))) <= Z.of_nat k).
    { apply IH.
      - rewrite length_skipn. fold m. lia.
      - apply Ho. apply nth_In. exact Hq.
      - intros x Hx. apply Ho. eapply In_skipn. exact Hx. }
    pose proof (depth_conc_bound _ _ (proj1 Hl) (proj1 Hr)). lia.
Qed.

Lemma log2_up_covers (n : nat) : (S n <= 2 ^ Nat.log2_up (S n))%nat.
Proof.
  destruct n as [|n]; [simpl; lia|].
  pose proof (Nat.log2_up_spec (S (S n)) ltac:(lia)). lia.
Qed.

(** * Further properties of the code *)

Lemma substring_0_all (s : string) : substring 0 (String.length s) s = s.
Proof. induction s; simpl; congruence. Qed.

Lemma substring_zero_len (s : string) : forall n, substring n 0 s = ""%string.
Proof. induction s; intros [|n]; simpl; auto. Qed.

Lemma substring_0_long (s : string) : forall m,
  (String.length s <= m)%nat -> substring 0 m s = s.
Proof.
  induction s as [|c s IH]; intros [|m] H; simpl in *; try lia; auto.
  rewrite IH by lia. reflexivity.
Qed.

Lemma suffix_app_le (s1 s2 : string) : forall k,
  (k <= String.length s1)%nat ->
  substring k (String.length (s1 ++ s2) - k) (s1 ++ s2) =
  (substring k (String.length s1 - k) s1 ++ s2)%string.
Proof.
  induction s1 as [|c s1 IH]; intros k Hk; simpl in *.
  - assert (k = 0%nat) by lia. subst. simpl. rewrite Nat.sub_0_r.
    apply substring_0_all.
  - destruct k as [|k].
    + simpl. rewrite substring_0_all, substring_0_all. reflexivity.
    + apply IH. lia.
Qed.

Lemma suffix_app_ge (s1 s2 : string) : forall k,
  (String.length s1 <= k)%nat ->
  substring k (String.length (s1 ++ s2) - k) (s1 ++ s2) =
  substring (k - String.length s1) (String.length s2 - (k - String.length s1)) s2.
Proof.
  induction s1 as [|c s1 IH]; intros k Hk; simpl in *.
  - rewrite Nat.sub_0_r. reflexivity.
  - destruct k as [|k]; [lia|]. simpl. apply IH. lia.
Qed.

Lemma prefix_app_le (s1 s2 : string) : forall k,
  (k <= String.length s1)%nat -> substring 0 k (s1 ++ s2) = substring 0 k s1.
Proof.
  induction s1 as [|c s1 IH]; intros k Hk; simpl in *.
  - assert (k = 0%nat) by lia. subst. destruct s2; reflexivity.
  - destruct k as [|k]; [reflexivity|]. simpl. rewrite IH by lia. reflexivity.
Qed.

Lemma prefix_app_ge (s1 s2 : string) : forall k,
  (String.length s1 <= k)%nat ->
  substring 0 k (s1 ++ s2) = (s1 ++ substring 0 (k - String.length s1) s2)%string.
Proof.
  induction s1 as [|c s1 IH]; intros k Hk; simpl in *.
  - rewrite Nat.sub_0_r. reflexivity.
  - destruct k as [|k]; [lia|]. simpl. rewrite IH by lia. reflexivity.
Qed.

Lemma suffix_suffix (s : string) : forall a b,
  substring a (String.length (substring b (String.length s - b) s) - a)
    (substring b (String.length s - b) s) =
  substring (a + b) (String.length s - (a + b)) s.
Proof.
  induction s as [|c s IH]; intros a b.
  - destruct b; destruct a; reflexivity.
  - destruct b as [|b].
    + rewrite Nat.add_0_r, Nat.sub_0_r, substring_0_all. reflexivity.
    + rewrite Nat.add_succ_r. simpl. apply IH.
Qed.

Lemma str_from_empty (k : Z) : str_from k "" = ""%string.
Proof. unfold str_from. destruct (Z.to_nat k); reflexivity. Qed.

Lemma str_from_0 (s : string) : str_from 0 s = s.
Proof. unfold str_from. simpl. rewrite Nat.sub_0_r. apply substring_0_all. Qed.

Lemma str_from_str_from (s : string) (a b : Z) : 0 <= a -> 0 <= b ->
  str_from a (str_from b s) = str_from (b + a) s.
Proof.
  intros Ha Hb. unfold str_from. rewrite suffix_suffix.
  replace (Z.to_nat (b + a)) with (Z.to_nat a + Z.to_nat b)%nat by lia. reflexivity.
Qed.

(** ** Lengths under int64 arithmetic *)

Lemma i64_small (z : Z) : - 2 ^ 63 <= z < 2 ^ 63 -> i64 z = z.
Proof. intros H. unfold i64. rewrite Z.mod_small by lia. lia. Qed.

Lemma fits_concat (l r : node) (sp rl d : Z) :
  fits (concat l r sp rl d) -> fits l /\ fits r.
Proof. unfold fits. cbn [write]. rewrite string_length_app. lia. Qed.

(** On a consistent node whose content fits in an int64, [length()] is
    the content length: no int64 sum wraps. *)
Lemma length_write (n : node) : wf n -> fits n ->
  length n = Z.of_nat (String.length (write n)).
Proof.
  induction n as [s|l IHl r IHr sp rl d|m IH]; intros Hwf Hf.
  - reflexivity.
  - destruct (fits_concat _ _ _ _ _ Hf) as [Fl Fr].
    unfold fits in Hf. cbn [wf write length] in *.
    destruct Hwf as [Hl [Hr [-> Hrl]]].
    rewrite string_length_app in Hf.
    rewrite (IHl Hl Fl), (IHr Hr Fr) in *.
    assert (Hrr : (if 0 <? rl then rl else Z.of_nat (String.length (write r))) =
                  Z.of_nat (String.length (write r))).
    { destruct Hrl as [-> | ->]; [reflexivity|].
      destruct (0 <? Z.of_nat (String.length (write r))); reflexivity. }
    rewrite Hrr, string_length_app, Nat2Z.inj_add, i64_small; lia.
  - exact (IH Hwf Hf).
Qed.

Lemma length_nonneg (n : node) : wf n -> fits n -> 0 <= length n.
Proof. intros Hw Hf. rewrite (length_write n Hw Hf). lia. Qed.

(** [conc] keeps split/length consistency when each length hint is
    non-positive or exact and the two lengths add up without wrapping;
    its length is then the sum of the operands'. *)
Lemma conc_wf_length (lhs rhs : node) (hl hr : Z) :
  wf lhs -> wf rhs -> fits lhs -> fits rhs -> length lhs + length rhs < 2 ^ 63 ->
  (hl <= 0 \/ hl = length lhs) -> (hr <= 0 \/ hr = length rhs) ->
  wf (conc lhs rhs hl hr) /\ fits (conc lhs rhs hl hr) /\
  length (conc lhs rhs hl hr) = length lhs + length rhs.
Proof.
  intros Hl Hr Fl Fr Hsum Hhl Hhr.
  pose proof (length_write lhs Hl Fl) as HL. pose proof (length_write rhs Hr Fr) as HR.
  cut (wf (conc lhs rhs hl hr) /\ length (conc lhs rhs hl hr) = length lhs + length rhs).
  { intros [H1 H2]. split; [exact H1|]. split; [|exact H2].
    unfold fits. rewrite write_conc, string_length_app. lia. }
  unfold conc.
  destruct (is_emptyNode lhs) eqn:E1.
  { apply is_emptyNode_true in E1. subst. simpl. split; auto. }
  destruct (is_emptyNode rhs) eqn:E2.
  { apply is_emptyNode_true in E2. subst. simpl. split; auto. lia. }
  set (hl' := if hl <=? 0 then length lhs else hl).
  set (hr1 := if hr <=? 0 then length rhs else hr).
  assert (Hhl' : hl' = length lhs) by (unfold hl'; destruct (hl <=? 0) eqn:E; zbool; lia).
  assert (Hhr1 : hr1 = length rhs) by (unfold hr1; destruct (hr <=? 0) eqn:E; zbool; lia).
  set (hr2 := if hr1 >? rLen_max then 0 else hr1).
  assert (Hhr2 : hr2 mod 2 ^ 32 = 0 \/ hr2 mod 2 ^ 32 = length rhs).
  { unfold hr2, rLen_max in *. destruct (hr1 >? 2 ^ 32 - 1) eqn:E; zbool.
    - left. reflexivity.
    - right. rewrite Z.mod_small by lia. lia. }
  split; [cbn [wf]; auto|].
  cbn [length].
  assert (Hrr : (if 0 <? hr2 mod 2 ^ 32 then hr2 mod 2 ^ 32 else length rhs) = length rhs).
  { destruct Hhr2 as [-> | ->]; [reflexivity|]. destruct (0 <? length rhs); reflexivity. }
  rewrite Hrr, Hhl', i64_small; lia.
Qed.

(** ** Drops on nodes *)

Lemma str_from_length (k : Z) (s : string) :
  String.length (str_from k s) = (String.length s - Z.to_nat k)%nat.
Proof.
  unfold str_from. destruct (Nat.le_gt_cases (Z.to_nat k) (String.length s)) as [H|H].
  - apply substring_length. lia.
  - replace (String.length s - Z.to_nat k)%nat with 0%nat by lia.
    rewrite substring_zero_len. reflexivity.
Qed.

Lemma str_upto_length (k : Z) (s : string) :
  (String.length (str_upto k s) <= String.length s)%nat.
Proof.
  unfold str_upto. destruct (Nat.le_gt_cases (String.length s) (Z.to_nat k)) as [H|H].
  - rewrite substring_0_long by exact H. lia.
  - rewrite substring_length by lia. lia.
Qed.

(** On a consistent node that fits, [dropPrefix k] with an int64 [k]
    keeps consistency and leaves the content from byte [k] on. *)
Lemma dropPrefix_ok (n : node) : wf n -> fits n -> forall k, k < 2 ^ 63 ->
  wf (dropPrefix k n) /\ fits (dropPrefix k n) /\
  write (dropPrefix k n) = str_from k (write n).
Proof.
  induction n as [s|l IHl r IHr sp rl d|m IH]; intros Hwf Hf k Hk.
  - cbn [dropPrefix].
    destruct (k >=? Z.of_nat (String.length s)) eqn:E1; zbool.
    + split; [exact I|]. split; [unfold fits; simpl; lia|].
      cbn [write]. unfold str_from.
      replace (String.length s - Z.to_nat k)%nat with 0%nat by lia.
      rewrite substring_zero_len. reflexivity.
    + destruct (k <=? 0) eqn:E2; zbool.
      * split; [exact I|]. split; [exact Hf|]. cbn [write]. unfold str_from.
        replace (Z.to_nat k) with 0%nat by lia. rewrite Nat.sub_0_r, substring_0_all.
        reflexivity.
      * split; [exact I|]. split; [|reflexivity].
        unfold fits in *. cbn [write] in *. rewrite str_from_length. lia.
  - pose proof Hwf as Hwf'. cbn [wf] in Hwf. destruct Hwf as [Hl [Hr [Hsp Hrl]]].
    destruct (fits_concat _ _ _ _ _ Hf) as [Fl Fr].
    pose proof (length_write l Hl Fl) as HL. pose proof (length_write r Hr Fr) as HR.
    pose proof Hf as Hf'. unfold fits in Hf. cbn [write] in Hf. rewrite string_length_app in Hf.
    cbn [dropPrefix write].
    destruct (k <=? 0) eqn:E1; zbool.
    + split; [exact Hwf'|]. split; [exact Hf'|].
      unfold str_from. replace (Z.to_nat k) with 0%nat by lia.
      rewrite Nat.sub_0_r, substring_0_all. reflexivity.
    + destruct (k <? sp) eqn:E2; zbool.
      * rewrite (i64_small (sp - k)) by lia.
        destruct (IHl Hl Fl k Hk) as (Hwl & Fl' & Hcl).
        assert (Hlen' : length (dropPrefix k l) = sp - k).
        { rewrite (length_write _ Hwl Fl'), Hcl, str_from_length. lia. }
        destruct (conc_wf_length (dropPrefix k l) r (sp - k) rl Hwl Hr Fl' Fr ltac:(lia)
                    ltac:(right; lia) ltac:(destruct Hrl; [left|right]; lia))
          as (Hw & Fw & _).
        split; [exact Hw|]. split; [exact Fw|].
        rewrite write_conc, Hcl. unfold str_from. rewrite suffix_app_le by lia. reflexivity.
      * rewrite (i64_small (k - sp)) by lia.
        destruct (IHr Hr Fr (k - sp) ltac:(lia)) as (Hwr & Fr' & Hcr).
        split; [exact Hwr|]. split; [exact Fr'|].
        rewrite Hcr. unfold str_from. rewrite suffix_app_ge by lia.
        replace (Z.to_nat (k - sp)) with (Z.to_nat k - String.length (write l))%nat by lia.
        reflexivity.
  - exact (IH Hwf Hf k Hk).
Qed.

(** On a consistent node that fits, [dropPostfix k] keeps consistency
    and leaves the first [k] bytes of the content. *)
Lemma dropPostfix_ok (n : node) : wf n -> fits n -> forall k,
  wf (dropPostfix k n) /\ fits (dropPostfix k n) /\
  write (dropPostfix k n) = str_upto k (write n).
Proof.
  induction n as [s|l IHl r IHr sp rl d|m IH]; intros Hwf Hf k.
  - cbn [dropPostfix].
    destruct (k >=? Z.of_nat (String.length s)) eqn:E1; zbool.
    + split; [exact I|]. split; [exact Hf|]. cbn [write]. unfold str_upto.
      rewrite substring_0_long by lia. reflexivity.
    + destruct (k <=? 0) eqn:E2; zbool.
      * split; [exact I|]. split; [unfold fits; simpl; lia|]. cbn [write]. unfold str_upto.
        replace (Z.to_nat k) with 0%nat by lia. destruct s; reflexivity.
      * split; [exact I|]. split; [|reflexivity].
        unfold fits in *. cbn [write] in *. pose proof (str_upto_length k s). lia.
  - pose proof Hwf as Hwf'. cbn [wf] in Hwf. destruct Hwf as [Hl [Hr [Hsp Hrl]]].
    destruct (fits_concat _ _ _ _ _ Hf) as [Fl Fr].
    pose proof (length_write l Hl Fl) as HL. pose proof (length_write r Hr Fr) as HR.
    pose proof Hf as Hf'. unfold fits in Hf. cbn [write] in Hf. rewrite string_length_app in Hf.
    assert (Hrlen : (if 0 <? rl then rl else length r) = length r)
      by (destruct Hrl as [->| ->]; [reflexivity|]; destruct (0 <? length r); reflexivity).
    cbn [dropPostfix write]. rewrite Hrlen.
    rewrite (i64_small (sp + length r)) by lia.
    destruct (k <=? 0) eqn:E1; zbool.
    + split; [exact I|]. split; [unfold fits; simpl; lia|]. unfold str_upto.
      replace (Z.to_nat k) with 0%nat by lia. destruct (write l ++ write r)%string; reflexivity.
    + destruct (k <=? sp) eqn:E2; zbool.
      * destruct (IHl Hl Fl k) as (Hwl & Fl' & Hcl).
        split; [exact Hwl|]. split; [exact Fl'|].
        rewrite Hcl. unfold str_upto. rewrite prefix_app_le by lia. reflexivity.
      * destruct (k >=? sp + length r) eqn:E3; zbool.
        -- split; [exact Hwf'|]. split; [exact Hf'|]. unfold str_upto.
           rewrite substring_0_long; [reflexivity|]. rewrite string_length_app. lia.
        -- rewrite (i64_small (k - sp)) by lia.
           destruct (IHr Hr Fr (k - sp)) as (Hwr & Fr' & Hcr).
           assert (Hlen' : length (dropPostfix (k - sp) r) = k - sp).
           { rewrite (length_write _ Hwr Fr'), Hcr. unfold str_upto.
             rewrite substring_length by lia. lia. }
           destruct (conc_wf_length l (dropPostfix (k - sp) r) sp (k - sp) Hl Hwr Fl Fr'
                       ltac:(lia) ltac:(right; exact Hsp) ltac:(right; lia))
             as (Hw & Fw & _).
           split; [exact Hw|]. split; [exact Fw|].
           rewrite write_conc, Hcr. unfold str_upto. rewrite prefix_app_ge by lia.
           replace (Z.to_nat (k - sp)) with (Z.to_nat k - String.length (write l))%nat by lia.
           reflexivity.
  - exact (IH Hwf Hf k).
Qed.

(** ** Drops and slices on ropes *)

Lemma DropPrefix_ok (r : Rope) (k : Z) : wf_rope r -> fits_rope r -> k < 2 ^ 63 ->
  wf_rope (DropPrefix r k) /\ fits_rope (DropPrefix r k) /\
  materialize (DropPrefix r k) = str_from k (materialize r).
Proof.
  destruct r as [n|]; intros Hw Hf Hk; unfold DropPrefix.
  - destruct (k =? 0) eqn:E; zbool.
    + subst. split; [exact Hw|]. split; [exact Hf|]. symmetry. apply str_from_0.
    + exact (dropPrefix_ok n Hw Hf k Hk).
  - split; [exact I|]. split; [exact Hf|]. symmetry. apply str_from_empty.
Qed.

Lemma DropPostfix_ok (r : Rope) (k : Z) : wf_rope r -> fits_rope r -> k < 2 ^ 63 ->
  wf_rope (DropPostfix r k) /\ fits_rope (DropPostfix r k) /\
  materialize (DropPostfix r k) = str_from k (materialize r).
Proof.
  destruct r as [n|]; intros Hw Hf Hk; unfold DropPostfix.
  - exact (dropPrefix_ok n Hw Hf k Hk).
  - split; [exact I|]. split; [exact Hf|]. symmetry. apply str_from_empty.
Qed.

Lemma Slice_materialize (r : Rope) (start end_ : Z) :
  wf_rope r -> fits_rope r -> end_ < 2 ^ 63 ->
  materialize (Slice r start end_) =
    (if Z.max start 0 >=? end_ then ""%string
     else str_from (end_ + Z.max start 0) (materialize r)).
Proof.
  intros Hw Hf He. unfold Slice.
  replace (if start <? 0 then 0 else start) with (Z.max start 0)
    by (destruct (start <? 0) eqn:E; zbool; lia).
  destruct (Z.max start 0 >=? end_) eqn:E; zbool; [reflexivity|].
  destruct (DropPostfix_ok r end_ Hw Hf He) as (Hw' & Hf' & Hc').
  destruct (DropPrefix_ok _ (Z.max start 0) Hw' Hf' ltac:(lia)) as (_ & _ & Hc).
  rewrite Hc, Hc'. apply str_from_str_from; lia.
Qed.

Lemma Len_materialize (r : Rope) : wf_rope r -> fits_rope r ->
  Len r = Z.of_nat (String.length (materialize r)).
Proof. destruct r as [n|]; simpl; [apply length_write|reflexivity]. Qed.

Lemma strings_concat_app (l1 l2 : list string) :
  strings_concat (l1 ++ l2) = (strings_concat l1 ++ strings_concat l2)%string.
Proof.
  induction l1 as [|s l1 IH]; simpl; [reflexivity|].
  rewrite IH. apply string_app_assoc.
Qed.

Lemma list_split_nth {A} (l : list A) (d : A) : forall k, (k < List.length l)%nat ->
  l = firstn k l ++ nth k l d :: skipn (S k) l.
Proof.
  induction l as [|x l IH]; intros k Hk; simpl in *; [lia|].
  destruct k as [|k]; [reflexivity|]. simpl. f_equal. apply IH. lia.
Qed.

Lemma concMany_write (first : option node) (others : list node) :
  write (concMany first others) = (materialize first ++ strings_concat (map write others))%string.
Proof.
  funelim (concMany first others).
  - destruct first; simpl; [rewrite string_app_nil_r|]; reflexivity.
  - simp concMany. cbn zeta. rewrite write_conc, H, H0. simpl materialize.
    set (k := Nat.div (List.length (o :: os)) 2).
    assert (Hk : (k < List.length (o :: os))%nat).
    { unfold k. apply Nat.div_lt; simpl; lia. }
    rewrite (list_split_nth (o :: os) emptyNode k Hk) at 3.
    rewrite map_app, strings_concat_app. simpl.
    rewrite <- !string_app_assoc. reflexivity.
Qed.

Lemma skip_nil_materialize (r : Rope) (rhs : list Rope) :
  (materialize (fst (skip_nil r rhs)) ++ strings_concat (map materialize (snd (skip_nil r rhs))))%string =
  (materialize r ++ strings_concat (map materialize rhs))%string.
Proof.
  revert r. induction rhs as [|y rest IH]; intros [n|]; simpl; auto.
Qed.

Lemma skip_nil_some (r : Rope) (rhs : list Rope) :
  fst (skip_nil r rhs) = None -> snd (skip_nil r rhs) = [].
Proof.
  revert r. induction rhs as [|y rest IH]; intros [n|]; simpl; auto; discriminate.
Qed.

Lemma rope_nodes_write (rhs : list Rope) :
  strings_concat (map write (rope_nodes rhs)) = strings_concat (map materialize rhs).
Proof. induction rhs as [|[n|] rest IH]; simpl; congruence. Qed.

Lemma Concat_materialize (r : Rope) (rhs : list Rope) :
  materialize (Concat r rhs) = (materialize r ++ strings_concat (map materialize rhs))%string.
Proof.
  rewrite <- skip_nil_materialize. unfold Concat.
  pose proof (skip_nil_some r rhs) as Hs.
  destruct (skip_nil r rhs) as [r' rhs']. simpl in *.
  destruct rhs' as [|y rest].
  - simpl. symmetry. apply string_app_nil_r.
  - destruct r' as [n|]; [|discriminate (Hs eq_refl)].
    cbn [materialize]. rewrite concMany_write. cbn [materialize write].
    rewrite rope_nodes_write. reflexivity.
Qed.

Lemma Concat_nil (r : Rope) (rhs : list Rope) :
  Concat r rhs = None <-> (r = None /\ Forall (fun x => x = None) rhs).
Proof.
  unfold Concat. revert r. induction rhs as [|y rest IH]; intros [n|]; simpl.
  - split; [discriminate|intros [H _]; discriminate].
  - split; [intros _; auto|auto].
  - split; [discriminate|intros [H _]; discriminate].
  - rewrite IH. split.
    + intros [-> H]. auto.
    + intros [_ H]. inversion H; subst. auto.
Qed.

Lemma double_self_length (k : nat) : forall r,
  Z.of_nat (String.length (materialize (double_self k r))) =
  2 ^ Z.of_nat k * Z.of_nat (String.length (materialize r)).
Proof.
  induction k as [|k IH]; intros r; cbn [double_self].
  - lia.
  - rewrite IH, Concat_materialize. cbn [map strings_concat].
    rewrite string_app_nil_r, string_length_app, Nat2Z.inj_add, Nat2Z.inj_succ,
      Z.pow_succ_r by lia.
    ring.
Qed.

Lemma si_snoc (l : list Z) (x y : Z) :
  strictly_increasing (l ++ [x]) = true -> x < y ->
  strictly_increasing (l ++ [x; y]) = true.
Proof.
  induction l as [|z l IH]; intros H Hxy.
  - simpl. rewrite andb_true_r. apply Z.ltb_lt. exact Hxy.
  - destruct l as [|w l].
    + simpl in *. rewrite andb_true_r in H. rewrite H. simpl.
      rewrite andb_true_r. apply Z.ltb_lt. exact Hxy.
    + simpl in H |- *. apply andb_true_iff in H as [H1 H2].
      rewrite H1. simpl. apply IH; assumption.
Qed.

Lemma fib_snoc (l : list Z) (x y : Z) :
  fib_like (l ++ [x; y]) = true -> fib_like (l ++ [x; y; x + y]) = true.
Proof.
  induction l as [|z l IH]; intros H.
  - simpl. rewrite Z.eqb_refl. reflexivity.
  - destruct l as [|w [|u l]].
    + simpl in *. rewrite andb_true_r in H. rewrite H, Z.eqb_refl. reflexivity.
    + simpl in *. apply andb_true_iff in H as [H1 H2]. rewrite H1. simpl.
      rewrite andb_true_r in H2. rewrite H2, Z.eqb_refl. reflexivity.
    + simpl in H |- *. apply andb_true_iff in H as [H1 H2]. rewrite H1. simpl.
      apply IH. exact H2.
Qed.

Lemma last_snoc2 (l : list Z) (x y : Z) : last (l ++ [x; y]) 0 = y.
Proof.
  replace (l ++ [x; y]) with ((l ++ [x]) ++ [y]) by (rewrite <- app_assoc; reflexivity).
  apply last_last.
Qed.

Lemma nth_snoc2 (l : list Z) (x y : Z) :
  nth (List.length (l ++ [x; y]) - 2) (l ++ [x; y]) 0 = x.
Proof.
  rewrite length_app. simpl.
  replace (List.length l + 2 - 2)%nat with (List.length l) by lia.
  rewrite app_nth2 by lia. rewrite Nat.sub_diag. reflexivity.
Qed.

Lemma extendFibs_loop_spec (N : Z) (f : nat) : forall pre a b,
  1 <= a < b -> N <= b + Z.of_nat f -> N <= 2 ^ 62 ->
  strictly_increasing (pre ++ [a; b]) = true -> fib_like (pre ++ [a; b]) = true ->
  exists ext,
    extendFibs_loop f a b N (pre ++ [a; b]) = Ok (pre ++ [a; b] ++ ext) /\
    strictly_increasing (pre ++ [a; b] ++ ext) = true /\
    fib_like (pre ++ [a; b] ++ ext) = true /\
    N <= last (pre ++ [a; b] ++ ext) 0 /\
    (ext <> [] -> nth (List.length (pre ++ [a; b] ++ ext) - 2) (pre ++ [a; b] ++ ext) 0 < N).
Proof.
  induction f as [|f IH]; intros pre a b Hab HN HN62 Hsi Hfl.
  - exists []. rewrite app_nil_r. simpl.
    destruct (b <? N) eqn:E; zbool; [lia|].
    repeat split; auto.
    + rewrite last_snoc2. lia.
    + intros C. contradiction.
  - cbn [extendFibs_loop]. destruct (b <? N) eqn:E; zbool.
    + rewrite (i64_small (a + b)) by lia.
      assert (Hsi' : strictly_increasing ((pre ++ [a]) ++ [b; a + b]) = true).
      { apply si_snoc; [|lia]. rewrite <- app_assoc. exact Hsi. }
      assert (Hfl' : fib_like ((pre ++ [a]) ++ [b; a + b]) = true).
      { rewrite <- app_assoc. simpl. apply fib_snoc. exact Hfl. }
      destruct (IH (pre ++ [a]) b (a + b) ltac:(lia) ltac:(lia) HN62 Hsi' Hfl')
        as (ext & Hrun & H1 & H2 & H3 & H4).
      exists ((a + b) :: ext). cbn [app].
      replace (pre ++ a :: b :: a + b :: ext) with ((pre ++ [a]) ++ [b; a + b] ++ ext)
        by (rewrite <- app_assoc; reflexivity).
      replace ((pre ++ [a; b]) ++ [a + b]) with ((pre ++ [a]) ++ [b; a + b])
        by (rewrite <- !app_assoc; reflexivity).
      split; [exact Hrun|]. split; [exact H1|]. split; [exact H2|]. split; [exact H3|].
      intros _. destruct ext as [|e ext].
      * simpl. change (pre ++ a :: b :: a + b :: []) with (pre ++ [a; b; a + b]).
        replace (pre ++ [a; b; a + b]) with ((pre ++ [a]) ++ [b; a + b])
          by (rewrite <- app_assoc; reflexivity).
        rewrite nth_snoc2. exact E.
      * apply H4. discriminate.
    + exists []. rewrite ?app_nil_r. repeat split; auto.
      * rewrite last_snoc2. lia.
      * intros C. contradiction.
Qed.

Lemma extendFibs_spec (cache : list Z) (N : Z) :
  strictly_increasing cache = true -> fib_like cache = true ->
  (2 <= List.length cache)%nat -> 1 <= hd 0 cache -> N <= 2 ^ 62 ->
  exists ext,
    extendFibs cache N = Ok (cache ++ ext) /\
    strictly_increasing (cache ++ ext) = true /\
    fib_like (cache ++ ext) = true /\
    N <= last (cache ++ ext) 0 /\
    (ext <> [] -> nth (List.length (cache ++ ext) - 2) (cache ++ ext) 0 < N).
Proof.
  intros Hsi Hfl Hlen Hhd HN62.
  assert (Hdec : exists pre a b, cache = pre ++ [a; b]).
  { rewrite <- (rev_involutive cache) in Hlen |- *. rewrite length_rev in Hlen.
    destruct (rev cache) as [|b [|a rpre]]; simpl in Hlen; try lia.
    exists (rev rpre), a, b. simpl. rewrite <- app_assoc. reflexivity. }
  destruct Hdec as (pre & a & b & ->).
  assert (HL : List.length (pre ++ [a; b]) = (List.length pre + 2)%nat)
    by (rewrite length_app; reflexivity).
  assert (Ha : nth (List.length pre) (pre ++ [a; b]) 0 = a)
    by (rewrite app_nth2 by lia; rewrite Nat.sub_diag; reflexivity).
  assert (Hb : nth (S (List.length pre)) (pre ++ [a; b]) 0 = b)
    by (rewrite app_nth2 by lia; replace (S (List.length pre) - List.length pre)%nat with 1%nat by lia; reflexivity).
  assert (Hab : a < b).
  { pose proof (strictly_increasing_nth _ Hsi (List.length pre) (S (List.length pre)) ltac:(lia)). lia. }
  assert (H1a : 1 <= a).
  { pose proof (strictly_increasing_mono _ Hsi 0 (List.length pre) ltac:(lia)) as H.
    rewrite Ha in H. destruct pre; simpl in *; lia. }
  unfold extendFibs. rewrite HL.
  replace (Z.of_nat (List.length pre + 2) - 2) with (Z.of_nat (List.length pre)) by lia.
  replace (Z.of_nat (List.length pre + 2) - 1) with (Z.of_nat (S (List.length pre))) by lia.
  rewrite !index_in_range with (d := 0) by (rewrite HL; lia).
  rewrite !Nat2Z.id, Ha, Hb. cbn [bind].
  destruct (extendFibs_loop_spec N (Z.to_nat N) pre a b ltac:(lia) ltac:(lia) HN62 Hsi Hfl)
    as (ext & H1 & H2 & H3 & H4 & H5).
  exists ext. rewrite <- app_assoc. auto.
Qed.

Lemma extendFibs_short (cache : list Z) (N : Z) :
  (List.length cache < 2)%nat -> extendFibs cache N = Panic.
Proof.
  intros H. unfold extendFibs. rewrite index_out_of_range by lia. reflexivity.
Qed.

Lemma substring_split (s : string) : forall p n m,
  (p + n + m <= String.length s)%nat ->
  (substring p n s ++ substring (p + n) m s)%string = substring p (n + m) s.
Proof.
  induction s as [|c s IH]; intros p n m H; simpl in H.
  - assert (p = 0%nat /\ n = 0%nat /\ m = 0%nat) as (-> & -> & ->) by lia. reflexivity.
  - destruct p as [|p].
    + destruct n as [|n].
      * simpl. destruct m; reflexivity.
      * simpl. f_equal. apply (IH 0%nat n m). lia.
    + simpl. apply IH. lia.
Qed.

(** Draining a reader on the leaf [a] at [p] with at most one concat on
    its stack. *)
Lemma drain_last_leaf (st : list node) (a : string) (k : nat) :
  (List.length st <= 1)%nat -> (1 <= k)%nat ->
  forall fuel p, (p <= String.length a)%nat -> (String.length a - p < fuel)%nat ->
  drain fuel k (mkReader st a (Z.of_nat p)) =
    match st with
    | [] => Panic
    | _ => Ok (substring p (String.length a - p) a)
    end.
Proof.
  intros Hst Hk fuel. induction fuel as [|f IH]; intros p Hp Hf; [lia|].
  cbn [drain]. unfold Read. cbn [stack]. simpl read_loop.
  destruct (Z.of_nat p =? Z.of_nat (String.length a)) eqn:E; zbool.
  - assert (p = String.length a) as -> by lia.
    unfold nextNode. cbn [stack].
    destruct st as [|x [|y st]]; simpl in Hst; try lia; cbn.
    + reflexivity.
    + rewrite Nat.sub_diag, substring_zero_len. reflexivity.
  - cbn [cur pos stack bind].
    rewrite Nat2Z.id.
    set (n := Nat.min k (String.length a - p)).
    replace (Z.of_nat p + Z.of_nat n) with (Z.of_nat (p + n)) by lia.
    rewrite (IH (p + n)%nat) by (unfold n; lia).
    destruct st as [|x st]; cbn [bind]; [reflexivity|].
    f_equal. replace (String.length a - (p + n))%nat with (String.length a - p - n)%nat by lia.
    rewrite substring_split by (unfold n; lia). f_equal. unfold n. lia.
Qed.

Lemma Reader_concat_leaf (a : string) (R : node) (sp rl d : Z) (k fuel : nat) :
  (1 <= k)%nat -> (String.length a < fuel)%nat ->
  read_all fuel k (Some (concat (leaf a) R sp rl d)) = Ok a.
Proof.
  intros Hk Hf. unfold read_all. simpl NewReader. cbn [bind].
  change 0 with (Z.of_nat 0).
  rewrite (drain_last_leaf [concat (leaf a) R sp rl d] a k ltac:(simpl; lia) Hk fuel 0)
    by lia.
  rewrite Nat.sub_0_r. f_equal. apply substring_0_all.
Qed.

Lemma Reader_leaf (a : string) (k fuel : nat) :
  (1 <= k)%nat -> (String.length a < fuel)%nat ->
  read_all fuel k (Some (leaf a)) = Panic /\ read_all fuel k None = Panic.
Proof.
  intros Hk Hf. unfold read_all. simpl NewReader. cbn [bind].
  change 0 with (Z.of_nat 0).
  rewrite (drain_last_leaf [] a k ltac:(simpl; lia) Hk fuel 0) by lia.
  split; [reflexivity|].
  rewrite (drain_last_leaf [] "" k ltac:(simpl; lia) Hk fuel 0) by (simpl; lia).
  reflexivity.
Qed.

Lemma nextNode_snoc (l : list node) (x : node) (c : string) (p : Z) :
  l <> [] ->
  nextNode (mkReader (l ++ [x]) c p) = pushSubtree (mkReader l c p) (last l emptyNode).
Proof.
  intros Hl. unfold nextNode. cbn [stack cur pos].
  destruct (l ++ [x]) eqn:H; [destruct l; discriminate|].
  rewrite <- H, removelast_last.
  destruct l; [contradiction|reflexivity].
Qed.

(** One [Read] on a reader at position [p] of the leaf [a], with the
    stack ending in [root] and its left child [L], whose left child is
    the leaf [a]: it returns non-empty bytes and leaves a reader of the
    same shape; read from the start of [a], the bytes continue a
    repetition of [a]. *)
Lemma Read_loop_step (a : string) (M R : node) (sp rl d sp' rl' d' : Z) (k : nat)
    (pre : list node) (p : nat) :
  a <> ""%string -> (1 <= k)%nat -> (p <= String.length a)%nat ->
  exists s pre' p' e,
    Read k (mkReader (pre ++ [concat (concat (leaf a) M sp' rl' d') R sp rl d;
                              concat (leaf a) M sp' rl' d']) a (Z.of_nat p)) =
      Ok (RData s, mkReader (pre' ++ [concat (concat (leaf a) M sp' rl' d') R sp rl d;
                                      concat (leaf a) M sp' rl' d']) a (Z.of_nat p')) /\
    s <> ""%string /\ (p' <= String.length a)%nat /\
    (substring 0 p a ++ s)%string = (strings_concat (repeat a e) ++ substring 0 p' a)%string.
Proof.
  intros Ha Hk Hp.
  set (L := concat (leaf a) M sp' rl' d'). set (root := concat L R sp rl d).
  assert (Hla : String.length a <> 0%nat) by (destruct a; simpl; [congruence|lia]).
  unfold Read. cbn [stack]. simpl read_loop.
  destruct (Z.of_nat p =? Z.of_nat (String.length a)) eqn:E; zbool.
  - assert (p = String.length a) as -> by lia.
    replace (pre ++ [root; L]) with ((pre ++ [root]) ++ [L]) by (rewrite <- app_assoc; reflexivity).
    rewrite nextNode_snoc by (destruct pre; discriminate).
    rewrite last_last.
    assert (Hpush : forall st c q, pushSubtree (mkReader st c q) root =
                      Ok (mkReader ((st ++ [root]) ++ [L]) a 0)) by reflexivity.
    rewrite Hpush. cbn [bind stack].
    destruct ((pre ++ [root]) ++ [root] ++ [L]) eqn:Hs2; [destruct pre; discriminate|].
    rewrite <- app_assoc, Hs2.
    destruct (List.length ((pre ++ [root]) ++ [L])) eqn:Hf;
      [rewrite length_app in Hf; simpl in Hf; lia|].
    cbn [read_loop stack cur pos].
    destruct (0 =? Z.of_nat (String.length a)) eqn:E0; zbool; [lia|].
    set (q := Nat.min k (String.length a - Z.to_nat 0)).
    exists (substring 0 q a), (pre ++ [root]), q, 1%nat.
    split; [rewrite <- Hs2, <- !app_assoc; f_equal; f_equal; lia|].
    split; [|split; [unfold q; lia|]].
    + intros Hs. apply (f_equal String.length) in Hs.
      rewrite substring_length in Hs by (unfold q; lia). simpl in Hs. unfold q in Hs. lia.
    + rewrite substring_0_all. simpl. rewrite string_app_nil_r. reflexivity.
  - cbn [cur pos stack].
    set (q := Nat.min k (String.length a - Z.to_nat (Z.of_nat p))).
    exists (substring (Z.to_nat (Z.of_nat p)) q a), pre, (p + q)%nat, 0%nat.
    split; [f_equal; f_equal; f_equal; lia|].
    split; [|split; [unfold q; lia|]].
    + intros Hs. apply (f_equal String.length) in Hs.
      rewrite substring_length in Hs by (unfold q; lia). simpl in Hs. unfold q in Hs. lia.
    + rewrite Nat2Z.id. cbn [repeat strings_concat].
      apply (substring_split a 0 p q). unfold q. lia.
Qed.

(** [n] successive [Read] calls from such a reader all return non-empty
    bytes, which continue the repetition of [a]. *)
Lemma reads_left_spine (a : string) (M R : node) (sp rl d sp' rl' d' : Z) (k : nat) :
  a <> ""%string -> (1 <= k)%nat -> forall n pre p, (p <= String.length a)%nat ->
  exists out,
    reads n k (mkReader (pre ++ [concat (concat (leaf a) M sp' rl' d') R sp rl d;
                                 concat (leaf a) M sp' rl' d']) a (Z.of_nat p)) = Ok out /\
    List.length out = n /\ Forall (fun x => exists s, x = RData s /\ s <> ""%string) out /\
    exists e p', (p' <= String.length a)%nat /\
      (substring 0 p a ++ read_data out)%string =
      (strings_concat (repeat a e) ++ substring 0 p' a)%string.
Proof.
  intros Ha Hk n. induction n as [|n IH]; intros pre p Hp.
  - exists []. split; [reflexivity|]. split; [reflexivity|]. split; [constructor|].
    exists 0%nat, p. split; [exact Hp|]. simpl. apply string_app_nil_r.
  - destruct (Read_loop_step a M R sp rl d sp' rl' d' k pre p Ha Hk Hp)
      as (s & pre' & p' & e1 & Hrd & Hs & Hp' & Hdata).
    destruct (IH pre' p' Hp') as (out & Hrun & Hlen & Hall & e2 & p'' & Hp'' & Hdata').
    exists (RData s :: out). cbn [reads]. rewrite Hrd. cbn [bind fst snd]. rewrite Hrun.
    split; [reflexivity|]. split; [simpl; congruence|].
    split; [constructor; [eauto|exact Hall]|].
    exists (e1 + e2)%nat, p''. split; [exact Hp''|].
    cbn [read_data]. rewrite string_app_assoc, Hdata, <- string_app_assoc, Hdata'.
    rewrite repeat_app, strings_concat_app, string_app_assoc. reflexivity.
Qed.

Lemma dwf_depth_nonneg (n : node) : dwf n -> 0 <= depth n.
Proof.
  induction n as [s|l IHl r IHr sp rl d|m IH]; cbn [dwf depth]; intros H.
  - lia.
  - destruct H as (Hl & _ & -> & _). specialize (IHl Hl). lia.
  - exact (IH H).
Qed.

Lemma conc_dwf (lhs rhs : node) (hl hr : Z) :
  dwf lhs -> dwf rhs -> Z.max (depth lhs) (depth rhs) < 255 ->
  dwf (conc lhs rhs hl hr) /\
  depth (conc lhs rhs hl hr) <= 1 + Z.max (depth lhs) (depth rhs).
Proof.
  intros Hl Hr Hd. pose proof (dwf_depth_nonneg _ Hl). pose proof (dwf_depth_nonneg _ Hr).
  unfold conc.
  destruct (is_emptyNode lhs); [split; [exact Hr|lia]|].
  destruct (is_emptyNode rhs); [split; [exact Hl|lia]|].
  cbn [dwf depth]. rewrite Z.mod_small by lia.
  split; [|lia]. repeat split; auto; lia.
Qed.

Lemma dropPrefix_depth (n : node) : dwf n -> forall k,
  dwf (dropPrefix k n) /\ depth (dropPrefix k n) <= depth n.
Proof.
  induction n as [s|l IHl r IHr sp rl d|m IH]; intros Hn k; cbn [dropPrefix].
  - destruct (k >=? _); [split; simpl; auto; lia|].
    destruct (k <=? 0); split; simpl; auto; lia.
  - destruct Hn as (Hl & Hr & Hd & Hd255). cbn [depth].
    pose proof (dwf_depth_nonneg _ Hl).
    destruct (k <=? 0); [split; [cbn [dwf]; repeat split; auto | cbn [depth]; lia]|].
    destruct (k <? sp).
    + destruct (IHl Hl k) as [H1 H2].
      pose proof (dwf_depth_nonneg _ Hr).
      destruct (conc_dwf (dropPrefix k l) r (i64 (sp - k)) rl H1 Hr ltac:(lia)) as [H3 H4].
      split; [exact H3|lia].
    + destruct (IHr Hr (i64 (k - sp))) as [H1 H2]. split; [exact H1|lia].
  - apply IH. exact Hn.
Qed.

Lemma dropPostfix_depth (n : node) : dwf n -> forall k,
  dwf (dropPostfix k n) /\ depth (dropPostfix k n) <= depth n.
Proof.
  induction n as [s|l IHl r IHr sp rl d|m IH]; intros Hn k; cbn [dropPostfix].
  - destruct (k >=? _); [split; simpl; auto; lia|].
    destruct (k <=? 0); split; simpl; auto; lia.
  - destruct Hn as (Hl & Hr & Hd & Hd255). cbn [depth].
    pose proof (dwf_depth_nonneg _ Hl).
    destruct (k <=? 0); [split; simpl; auto; lia|].
    destruct (k <=? sp).
    + destruct (IHl Hl k) as [H1 H2]. split; [exact H1|lia].
    + destruct (k >=? _); [split; [cbn [dwf]; repeat split; auto | cbn [depth]; lia]|].
      destruct (IHr Hr (i64 (k - sp))) as [H1 H2].
      pose proof (dwf_depth_nonneg _ Hl).
      destruct (conc_dwf l (dropPostfix (i64 (k - sp)) r) sp (i64 (k - sp)) Hl H1 ltac:(lia))
        as [H3 H4].
      split; [exact H3|lia].
  - apply IH. exact Hn.
Qed.

Lemma slots_len_app (l1 l2 : list B) : slots_len (l1 ++ l2) = slots_len l1 + slots_len l2.
Proof. induction l1; simpl; lia. Qed.

Lemma leaves_len_app (l1 l2 : list string) : leaves_len (l1 ++ l2) = leaves_len l1 + leaves_len l2.
Proof. induction l1; simpl; lia. Qed.

Lemma slots_len_cons (b : B) (l : list B) : slots_len (b :: l) = contrib b + slots_len l.
Proof. reflexivity. Qed.

Lemma index_Ok {A} (arr : list A) (i : Z) (x : A) :
  index arr i = Ok x -> 0 <= i < Z.of_nat (List.length arr) /\ nth_error arr (Z.to_nat i) = Some x.
Proof.
  unfold index. destruct (0 <=? i) eqn:E1, (i <? Z.of_nat (List.length arr)) eqn:E2;
    simpl; try discriminate. zbool.
  destruct (nth_error arr (Z.to_nat i)); intros H; [injection H as ->|discriminate]. auto.
Qed.

Lemma set_index_len (arr arr' : list B) (i : Z) (v old : B) :
  index arr i = Ok old -> set_index arr i v = Ok arr' ->
  slots_len arr' = slots_len arr - contrib old + contrib v.
Proof.
  intros Hi Hs. apply index_Ok in Hi as [Hr Hn].
  unfold set_index in Hs. destruct ((0 <=? i) && (i <? Z.of_nat (List.length arr))); [|discriminate].
  injection Hs as <-.
  assert (Hnth : nth (Z.to_nat i) arr old = old) by (apply nth_error_nth; exact Hn).
  pose proof (list_split_nth arr old (Z.to_nat i) ltac:(lia)) as Hsplit.
  rewrite Hnth in Hsplit.
  assert (Ha : slots_len arr = slots_len (firstn (Z.to_nat i) arr) + contrib old +
                               slots_len (skipn (S (Z.to_nat i)) arr)).
  { rewrite (f_equal slots_len Hsplit), slots_len_app, slots_len_cons. lia. }
  change (match arr with [] => [] | _ :: l => skipn (Z.to_nat i) l end)
    with (skipn (S (Z.to_nat i)) arr).
  rewrite slots_len_app, slots_len_cons. lia.
Qed.

Lemma index_set_index {A} (arr arr' : list A) (i : Z) (v : A) :
  set_index arr i v = Ok arr' -> index arr' i = Ok v.
Proof.
  unfold set_index. destruct (0 <=? i) eqn:E1, (i <? Z.of_nat (List.length arr)) eqn:E2;
    cbn [andb]; try discriminate. zbool. intros H. injection H as <-.
  change (match arr with [] => [] | _ :: l => skipn (Z.to_nat i) l end)
    with (skipn (S (Z.to_nat i)) arr).
  unfold index. rewrite length_app. cbn [List.length]. rewrite length_firstn, length_skipn.
  destruct (0 <=? i) eqn:E3, (i <? _) eqn:E4; zbool; try lia. cbn [andb].
  rewrite nth_error_app2 by (rewrite length_firstn; lia).
  rewrite length_firstn. replace (Z.to_nat i - Nat.min (Z.to_nat i) (List.length arr))%nat with 0%nat by lia.
  reflexivity.
Qed.

Lemma merge_loop_idle (k : nat) (bucket : Z) (sc : list B) (n : node) (nLen x : Z) :
  index sc bucket = Ok (None, x) -> merge_loop k bucket sc n nLen = Ok (sc, n, nLen).
Proof.
  intros H. induction k as [|k IH]; simpl; [reflexivity|]. rewrite H. simpl. exact IH.
Qed.

Lemma slot_ok_contrib (b : B) : slot_ok b -> 0 <= contrib b.
Proof.
  unfold slot_ok, contrib. destruct (fst b) as [n|]; [|lia].
  intros (Hw & Hf & ->). exact (length_nonneg n Hw Hf).
Qed.

Lemma slots_len_nonneg (l : list B) : (forall b, In b l -> slot_ok b) -> 0 <= slots_len l.
Proof.
  induction l as [|b l IH]; intros H; cbn [slots_len]; [lia|].
  pose proof (slot_ok_contrib b (H b (or_introl eq_refl))).
  assert (0 <= slots_len l) by (apply IH; intros x Hx; apply H; right; exact Hx). lia.
Qed.

Lemma leaves_len_nonneg (ls : list string) : 0 <= leaves_len ls.
Proof. induction ls; cbn [leaves_len]; lia. Qed.

Lemma leaves_len_write (n : node) : leaves_len (leaves n) = Z.of_nat (String.length (write n)).
Proof.
  induction n as [s|l IHl r IHr sp rl d|m IH]; cbn [leaves write].
  - cbn [leaves_len]. lia.
  - rewrite leaves_len_app, IHl, IHr, string_length_app. lia.
  - exact IH.
Qed.

Lemma merge_loop_clears (k : nat) (bucket : Z) (scratch sc' : list B) (n n' : node)
    (nLen nLen' : Z) :
  merge_loop (S k) bucket scratch n nLen = Ok (sc', n', nLen') ->
  exists x, index sc' bucket = Ok (None, x).
Proof.
  cbn [merge_loop]. destruct (index scratch bucket) as [b| |] eqn:Ei; cbn [bind]; try discriminate.
  destruct b as [[bn|] bl]; cbn [fst snd].
  - destruct (set_index scratch bucket (None, bl)) as [sc| |] eqn:Es; cbn [bind]; try discriminate.
    pose proof (index_set_index _ _ _ _ Es) as Hi.
    rewrite (merge_loop_idle k bucket sc _ _ bl Hi). intros H. injection H as <- <- <-. eauto.
  - rewrite (merge_loop_idle k bucket scratch _ _ bl Ei). intros H. injection H as <- <- <-. eauto.
Qed.

(** The merge loop keeps the slots and the accumulated node consistent,
    and the total length held in the slots and the accumulator, when
    that total fits in an int64. *)
Lemma merge_loop_ok (iters : nat) : forall bucket scratch n nLen res,
  (forall b, In b scratch -> slot_ok b) -> wf n -> fits n -> nLen = length n ->
  nLen + slots_len scratch < 2 ^ 63 ->
  merge_loop iters bucket scratch n nLen = Ok res ->
  (forall b, In b (fst (fst res)) -> slot_ok b) /\
  wf (snd (fst res)) /\ fits (snd (fst res)) /\ snd res = length (snd (fst res)) /\
  snd res + slots_len (fst (fst res)) = nLen + slots_len scratch.
Proof.
  induction iters as [|k IH]; intros bucket scratch n nLen res Hsc Hn Fn Hlen Hsum Hrun;
    cbn [merge_loop] in Hrun.
  - injection Hrun as <-. cbn [fst snd]. auto.
  - destruct (index scratch bucket) as [b| |] eqn:Ei; cbn [bind] in Hrun; try discriminate.
    pose proof (Hsc b (index_In _ _ _ Ei)) as Hb. unfold slot_ok in Hb.
    destruct (fst b) as [bn|] eqn:Eb.
    + destruct Hb as (Hbn & Fbn & Hblen).
      destruct (set_index scratch bucket (None, snd b)) as [sc'| |] eqn:Es;
        cbn [bind] in Hrun; try discriminate.
      pose proof (set_index_len scratch sc' bucket (None, snd b) b Ei Es) as Hsl.
      assert (Hsc' : forall x, In x sc' -> slot_ok x)
        by (apply (set_index_ok scratch sc' bucket (None, snd b)); [exact Hsc | exact I | exact Es]).
      pose proof (slots_len_nonneg sc' Hsc').
      pose proof (length_nonneg n Hn Fn). pose proof (length_nonneg bn Hbn Fbn).
      unfold contrib in Hsl. rewrite Eb in Hsl. cbn [fst snd] in Hsl.
      destruct (conc_wf_length n bn nLen (snd b) Hn Hbn Fn Fbn ltac:(lia)
                  (or_intror Hlen) (or_intror Hblen)) as (Hw & Fw & Hl).
      rewrite (i64_small (nLen + snd b)) in Hrun by lia.
      destruct (IH bucket sc' _ (nLen + snd b) res Hsc' Hw Fw ltac:(lia) ltac:(lia) Hrun)
        as (R1 & R2 & R3 & R4 & R5).
      repeat split; auto. lia.
    + eapply IH; eauto.
Qed.

Lemma visit_leaf_ok (debug : bool) (fibs : list Z) (scratch sc' : list B) (l : string) :
  (forall b, In b scratch -> slot_ok b) ->
  Z.of_nat (String.length l) + slots_len scratch < 2 ^ 63 ->
  visit_leaf debug fibs scratch l = Ok sc' ->
  (forall b, In b sc' -> slot_ok b) /\ slots_len sc' = slots_len scratch + Z.of_nat (String.length l).
Proof.
  intros Hsc Hsum Hv. unfold visit_leaf in Hv.
  destruct (binSearch (length (leaf l)) fibs) as [bucket| |]; cbn [bind] in Hv;
    try discriminate.
  destruct (merge_loop _ bucket scratch (leaf l) (length (leaf l))) as [res| |] eqn:Em;
    cbn [bind] in Hv; try discriminate.
  pose proof (slots_len_nonneg scratch Hsc).
  assert (Fl : fits (leaf l)) by (unfold fits; cbn [write]; lia).
  destruct (merge_loop_ok _ bucket scratch (leaf l) _ res Hsc I Fl eq_refl
              ltac:(cbn [length]; lia) Em) as (Hsc' & Hn & Fn & Hlen & Hsl).
  destruct res as [[sc n] nLen]. cbn [fst snd] in *.
  destruct (merge_loop_clears _ bucket scratch sc (leaf l) n _ nLen Em) as [x Hx].
  lazymatch type of Hv with bind ?m _ = _ => destruct m end;
    cbn [bind] in Hv; try discriminate.
  split.
  - apply (set_index_ok sc sc' bucket (Some n, nLen)); [exact Hsc' | | exact Hv].
    unfold slot_ok. cbn [fst snd]. auto.
  - rewrite (set_index_len sc sc' bucket _ (None, x) Hx Hv).
    unfold contrib in *. cbn [fst snd length] in *. lia.
Qed.

Lemma walk_leaves_ok (debug : bool) (fibs : list Z) (ls : list string) :
  forall scratch sc',
  (forall b, In b scratch -> slot_ok b) -> slots_len scratch + leaves_len ls < 2 ^ 63 ->
  walk_leaves debug fibs scratch ls = Ok sc' ->
  (forall b, In b sc' -> slot_ok b) /\ slots_len sc' = slots_len scratch + leaves_len ls.
Proof.
  induction ls as [|l rest IH]; intros scratch sc' Hsc Hsum Hw; cbn [walk_leaves] in Hw.
  - injection Hw as <-. cbn [leaves_len]. split; [exact Hsc | lia].
  - destruct (visit_leaf debug fibs scratch l) as [sc| |] eqn:Ev; cbn [bind] in Hw;
      try discriminate.
    cbn [leaves_len] in *. pose proof (leaves_len_nonneg rest).
    destruct (visit_leaf_ok debug fibs scratch sc l Hsc ltac:(lia) Ev) as [Hsc1 Hl1].
    destruct (IH sc sc' Hsc1 ltac:(lia) Hw) as [Hsc2 Hl2].
    split; [exact Hsc2 | lia].
Qed.

Lemma fold_slots_ok (slots : list B) : forall nw,
  (forall b, In b slots -> slot_ok b) -> slot_ok nw -> contrib nw + slots_len slots < 2 ^ 63 ->
  slot_ok (fold_slots nw slots) /\ contrib (fold_slots nw slots) = contrib nw + slots_len slots.
Proof.
  induction slots as [|b rest IH]; intros nw Hs Hnw Hsum; cbn [fold_slots slots_len] in *.
  { split; [exact Hnw | lia]. }
  assert (Hrest : forall x, In x rest -> slot_ok x) by (intros; apply Hs; right; auto).
  pose proof (slots_len_nonneg rest Hrest).
  pose proof (Hs b (or_introl eq_refl)) as Hb.
  pose proof (slot_ok_contrib b Hb). pose proof (slot_ok_contrib nw Hnw).
  unfold slot_ok in Hb. unfold contrib at 2 in Hsum.
  destruct (fst b) as [bn|] eqn:Eb.
  - unfold slot_ok in Hnw. unfold contrib at 1 in Hsum.
    destruct (fst nw) as [wn|] eqn:Ew.
    + destruct Hb as (Hbn & Fbn & Hbl). destruct Hnw as (Hwn & Fwn & Hwl).
      pose proof (length_nonneg bn Hbn Fbn). pose proof (length_nonneg wn Hwn Fwn).
      destruct (conc_wf_length bn wn (snd b) (snd nw) Hbn Hwn Fbn Fwn ltac:(lia)
                  (or_intror Hbl) (or_intror Hwl)) as (Hw & Fw & Hl).
      rewrite (i64_small (snd nw + snd b)) by lia.
      destruct (IH (Some (conc bn wn (snd b) (snd nw)), snd nw + snd b) Hrest
                  ltac:(unfold slot_ok; cbn [fst snd]; split; [exact Hw|]; split; [exact Fw|]; lia)
                  ltac:(unfold contrib; cbn [fst snd]; lia)) as [G1 G2].
      split; [exact G1|]. rewrite G2. unfold contrib. rewrite Ew, Eb. cbn [fst snd]. lia.
    + destruct (IH b Hrest ltac:(unfold slot_ok; rewrite Eb; exact Hb)
                  ltac:(unfold contrib; rewrite Eb; lia)) as [G1 G2].
      split; [exact G1|]. rewrite G2. unfold contrib. rewrite Ew, Eb. lia.
  - destruct (IH nw Hrest Hnw ltac:(lia)) as [G1 G2].
    split; [exact G1|]. assert (contrib b = 0) by (unfold contrib; rewrite Eb; reflexivity). lia.
Qed.

Lemma slots_len_repeat (k : nat) : slots_len (repeat ((None, 0) : B) k) = 0.
Proof. induction k; simpl; [reflexivity|]. rewrite IHk. reflexivity. Qed.

(** When the rebalancing body finishes on a consistent rope that fits,
    the result is consistent, fits, and has the same [Len]. *)
Lemma rebalance_with_ok (debug : bool) (fibs : list Z) (r r' : Rope) :
  wf_rope r -> fits_rope r -> rebalance_with debug fibs r = Ok r' ->
  wf_rope r' /\ fits_rope r' /\ Len r' = Len r.
Proof.
  intros Hr Fr Hreb. unfold rebalance_with in Hreb.
  destruct (binSearch (Len r) fibs) as [sz| |]; cbn [bind] in Hreb; try discriminate.
  destruct r as [root|]; [|discriminate].
  destruct (walk_leaves _ _ _ _) as [sc| |] eqn:Ew; cbn [bind] in Hreb; try discriminate.
  injection Hreb as <-.
  unfold fits_rope in Fr. cbn [materialize wf_rope Len] in *.
  assert (Hrep : forall b, In b (repeat ((None, 0) : B) (S (Z.to_nat sz))) -> slot_ok b).
  { intros b Hb. pose proof (repeat_spec (S (Z.to_nat sz)) ((None, 0) : B) b Hb). subst. exact I. }
  destruct (walk_leaves_ok debug fibs (leaves root) _ sc Hrep
              ltac:(rewrite slots_len_repeat, leaves_len_write; lia) Ew) as [Hsc Hsl].
  rewrite slots_len_repeat, leaves_len_write in Hsl.
  destruct (fold_slots_ok sc (None, 0) Hsc I ltac:(unfold contrib; cbn [fst]; lia))
    as [Hf Hc].
  rewrite (length_write root Hr Fr).
  unfold slot_ok, contrib in *. cbn [fst snd] in Hc.
  destruct (fst (fold_slots (None, 0) sc)) as [m|]; cbn [wf_rope fits_rope materialize Len].
  - destruct Hf as (Hm & Fm & Hlm). split; [exact Hm|]. split; [exact Fm|]. lia.
  - split; [exact I|]. unfold fits_rope. cbn [materialize String.length]. lia.
Qed.

(** * The claims *)

(** C1 (Rebalance preserves content and balances): on the rope "a"+"b",
    [Rebalance] panics, because [getFibCache] indexes
    [fibCache[len(fibCache)]]; with a table in hand, the leaf walk panics
    on its [Debug] bucket check (the merge reads [scratch[bucket]] and the
    bucket grows from 0 to 1); with [Debug] off it yields "ba", the new
    leaf being concatenated before the earlier one. *)
Theorem Rebalance_C1 :
  materialize (Concat (New "a") [New "b"]) = "ab"%string /\
  Rebalance fibCache0 (Concat (New "a") [New "b"]) = Panic /\
  rebalance_with Debug fibCache0 (Concat (New "a") [New "b"]) = Panic /\
  (exists r, rebalance_with false fibCache0 (Concat (New "a") [New "b"]) = Ok r /\
             materialize r = "ba"%string).
Proof.
  split; [reflexivity|].
  split; [apply Rebalance_panics|].
  split; [vm_compute; reflexivity|].
  eexists. split; [vm_compute; reflexivity | reflexivity].
Qed.

(** C2 (Slice returns the substring): [Slice] of "abcdef" from 2 to 5
    is empty, not "cde", because [DropPostfix] calls [dropPrefix]. *)
Theorem Slice_C2 :
  materialize (Slice (New "abcdef") 2 5) = ""%string /\
  substring 2 3 "abcdef" = "cde"%string.
Proof. split; reflexivity. Qed.

(** C3: the depth of a concat is a byte ([depthT]), so the interface's
    [max(left.depth, right.depth) + 1] wraps: 255 successive [Concat]
    calls with [New("a")] give depth 255, the 256th gives depth 0, and
    [conc] of the depth-255 node with a leaf has depth 0, not 256. *)
Theorem Concat_C3 :
  match append_a 255 (New "a") with Some n => depth n = 255 | None => False end /\
  match append_a 256 (New "a") with Some n => depth n = 0 | None => False end /\
  depth (conc deep255 (leaf "a") 0 0) = 0 /\
  depth (conc deep255 (leaf "a") 0 0) <> 1 + Z.max (depth deep255) (depth (leaf "a")).
Proof.
  split; [vm_compute; reflexivity|].
  split; [vm_compute; reflexivity|].
  split; [vm_compute; reflexivity|].
  vm_compute. discriminate.
Qed.

(** C4 (the reader yields the content, then one EOF): with a 2-byte
    buffer, reading the single leaf "abc" panics after "ab" and "c"
    ([nextNode] slices an empty stack), and reading "abc"+"def" stops
    with EOF after "abc" ([nextNode] pops the concat without visiting its
    right subtree). *)
Theorem Reader_C4 :
  read_all 10 2 (New "abc") = Panic /\
  read_all 10 2 (Some (conc (leaf "abc") (leaf "def") 0 0)) = Ok "abc"%string /\
  materialize (Some (conc (leaf "abc") (leaf "def") 0 0)) = "abcdef"%string.
Proof. split; [|split]; vm_compute; reflexivity. Qed.

(** C5 (no public operation aborts): [Rebalance] panics on every rope,
    [isBalanced] on every non-empty one, through the out-of-range index
    in [getFibCache], and reading the nil rope panics in [nextNode]. *)
Theorem no_abort_C5 :
  (forall cache r, Rebalance cache r = Panic) /\
  (forall cache, isBalanced cache (New "a") = Panic) /\
  read_all 10 1 None = Panic.
Proof.
  split; [exact Rebalance_panics|]. split.
  - intros cache. unfold isBalanced. simpl. rewrite getFibCache_panics. reflexivity.
  - vm_compute. reflexivity.
Qed.

(** C6: the one-byte leaf "a" has length 1 <= F[0 + 2] = 3, yet
    [isBalanced] panics in [getFibCache] instead of returning true, and
    the comparison it makes once the table is obtained ([depth <=
    reverseFib(len) - 2]) is false; while "abcd", of length 4 > F[2],
    passes that comparison: it bounds the length from below. *)
Theorem isBalanced_C6 :
  Len (New "a") <= nth 2 fibCache0 0 /\
  isBalanced fibCache0 (New "a") = Panic /\
  balanced_by fibCache0 (New "a") = Ok false /\
  nth 2 fibCache0 0 < Len (New "abcd") /\
  balanced_by fibCache0 (New "abcd") = Ok true.
Proof.
  split; [vm_compute; discriminate|].
  split; [vm_compute; reflexivity|].
  split; [vm_compute; reflexivity|].
  split; [vm_compute; reflexivity|].
  vm_compute; reflexivity.
Qed.

(** C7 (DropPrefix and DropPostfix): on "abcdef", [DropPrefix(3)] gives
    "def" but [DropPostfix(3)] also gives "def", not "abc", because the
    handle's [DropPostfix] calls [dropPrefix]. *)
Theorem DropPostfix_C7 :
  materialize (DropPrefix (New "abcdef") 3) = "def"%string /\
  materialize (DropPostfix (New "abcdef") 3) = "def"%string.
Proof. split; reflexivity. Qed.

(** C8 (divide-and-conquer concatenation): [concMany] over [N] depth-0
    nodes builds a tree of depth at most [ceil(log2 N)]; [Concat] of 1024
    one-byte ropes has depth 10, while 199 successive binary [Concat]
    calls give depth 199. *)
Theorem concMany_depth_C8 :
  (forall f others, depth f = 0 -> (forall x, In x others -> depth x = 0) ->
     0 <= depth (concMany (Some f) others) <= Z.of_nat (Nat.log2_up (S (List.length others)))) /\
  match Concat (New "a") (repeat (New "a") 1023) with
  | Some n => depth n = 10
  | None => False
  end /\
  match append_a 199 (New "a") with
  | Some n => depth n = 199
  | None => False
  end.
Proof.
  split; [|split; vm_compute; reflexivity].
  intros f others Hf Ho.
  apply concMany_depth; [apply log2_up_covers | exact Hf | exact Ho].
Qed.

Lemma concMany_depth_C8_witness :
  depth (leaf "a") = 0 /\ (forall x, In x [leaf "b"; leaf "c"] -> depth x = 0) /\
  depth (concMany (Some (leaf "a")) [leaf "b"; leaf "c"]) <= 2.
Proof.
  assert (Ho : forall x, In x [leaf "b"; leaf "c"] -> depth x = 0)
    by (simpl; intros x [<-|[<-|[]]]; reflexivity).
  split; [reflexivity|]. split; [exact Ho|].
  pose proof (proj1 concMany_depth_C8 (leaf "a") [leaf "b"; leaf "c"] eq_refl Ho) as H.
  simpl in H. lia.
Defined.

(** C9: [r63], [New("a")] doubled 63 times with [r.Concat(r)], holds
    [2^63] bytes and its int64 length wraps to [-2^63]; [m63 =
    r63.Concat(New("abcde"))] has length [-2^63 + 5].  In
    [New("z").Concat(m63)], [conc] keeps the non-positive hint, recomputes
    it as [-2^63 + 5] and truncates it to the uint32 [rLen] 5, so the
    result reports length 6 for [2^63 + 6] bytes, not [length(lhs) +
    length(rhs)]. *)
Theorem conc_length_C9 :
  Len r63 = - 2 ^ 63 /\
  Len m63 = - 2 ^ 63 + 5 /\
  match Concat (New "z") [m63] with
  | Some (concat _ _ sp rl _) => sp = 1 /\ rl = 5
  | _ => False
  end /\
  Len (Concat (New "z") [m63]) = 6 /\
  Len (Concat (New "z") [m63]) <> Len (New "z") + Len m63 /\
  Z.of_nat (String.length (materialize (Concat (New "z") [m63]))) = 2 ^ 63 + 6.
Proof.
  split; [vm_compute; reflexivity|].
  split; [vm_compute; reflexivity|].
  split; [vm_compute; split; reflexivity|].
  split; [vm_compute; reflexivity|].
  split; [vm_compute; discriminate|].
  rewrite Concat_materialize. cbn [map strings_concat].
  unfold m63. rewrite Concat_materialize. cbn [map strings_concat]. rewrite !string_app_nil_r, !string_length_app, !Nat2Z.inj_add.
  unfold r63. rewrite double_self_length. reflexivity.
Qed.

(** C10 (binary search and [reverseFib]): on a strictly increasing
    array, [binSearch] terminates without an out-of-range index and
    returns the least index [i] with [arr[i] >= N], or [len(arr)]; but
    [reverseFib] panics for every cache and [N], through the
    out-of-range index in [getFibCache]. *)
Theorem reverseFib_C10 :
  (forall arr N, strictly_increasing arr = true ->
     exists i, binSearch N arr = Ok i /\ bs_result arr N i) /\
  (forall cache N, reverseFib cache N = Panic).
Proof.
  split.
  - intros arr N Hinc. exact (binSearch_spec arr N Hinc).
  - exact reverseFib_panics.
Qed.

Lemma reverseFib_C10_witness :
  strictly_increasing fibCache0 = true /\
  exists i, binSearch 5 fibCache0 = Ok i /\ bs_result fibCache0 5 i.
Proof.
  split; [reflexivity|].
  exact (proj1 reverseFib_C10 fibCache0 5 eq_refl).
Defined.

(** * Extra properties of the code *)

(** X1 ([dropPrefix] on nodes): on a node whose cached split and right
    lengths are consistent and whose content fits in an int64 length,
    [dropPrefix k], for an int64 [k], keeps exactly the content from byte
    [k] on (all of it when [k <= 0], none when [k] is past the end). *)
Theorem dropPrefix_content (n : node) (k : Z) :
  wf n -> fits n -> k < 2 ^ 63 -> write (dropPrefix k n) = str_from k (write n).
Proof. intros Hwf Hf Hk. exact (proj2 (proj2 (dropPrefix_ok n Hwf Hf k Hk))). Qed.

Lemma dropPrefix_content_witness :
  wf (conc (leaf "ab") (leaf "cd") 0 0) /\ fits (conc (leaf "ab") (leaf "cd") 0 0) /\
  1 < 2 ^ 63 /\
  write (dropPrefix 1 (conc (leaf "ab") (leaf "cd") 0 0)) = "bcd"%string.
Proof.
  split; [vm_compute; repeat split; auto|].
  split; [vm_compute; reflexivity|].
  split; [lia|].
  rewrite (dropPrefix_content (conc (leaf "ab") (leaf "cd") 0 0) 1
             ltac:(vm_compute; repeat split; auto) ltac:(vm_compute; reflexivity) ltac:(lia)).
  reflexivity.
Defined.

(** X2 ([dropPostfix] on nodes): on a node whose cached split and right
    lengths are consistent and whose content fits in an int64 length,
    [dropPostfix k] keeps exactly the first [k] bytes of the content
    (none when [k <= 0], all when [k] is past the end). *)
Theorem dropPostfix_content (n : node) (k : Z) :
  wf n -> fits n -> write (dropPostfix k n) = str_upto k (write n).
Proof. intros Hwf Hf. exact (proj2 (proj2 (dropPostfix_ok n Hwf Hf k))). Qed.

Lemma dropPostfix_content_witness :
  wf (conc (leaf "ab") (leaf "cd") 0 0) /\ fits (conc (leaf "ab") (leaf "cd") 0 0) /\
  write (dropPostfix 3 (conc (leaf "ab") (leaf "cd") 0 0)) = "abc"%string.
Proof.
  split; [vm_compute; repeat split; auto|].
  split; [vm_compute; reflexivity|].
  rewrite (dropPostfix_content (conc (leaf "ab") (leaf "cd") 0 0) 3
             ltac:(vm_compute; repeat split; auto) ltac:(vm_compute; reflexivity)).
  reflexivity.
Defined.

(** X3 ([Rope.DropPrefix]): on a consistent rope whose content fits in
    an int64 length, including the nil rope, [DropPrefix k] for an int64
    [k] materializes to the content from byte [k] on. *)
Theorem DropPrefix_content (r : Rope) (k : Z) :
  wf_rope r -> fits_rope r -> k < 2 ^ 63 ->
  materialize (DropPrefix r k) = str_from k (materialize r).
Proof. intros Hw Hf Hk. exact (proj2 (proj2 (DropPrefix_ok r k Hw Hf Hk))). Qed.

Lemma DropPrefix_content_witness :
  wf_rope (Concat (New "ab") [New "cd"]) /\ fits_rope (Concat (New "ab") [New "cd"]) /\
  3 < 2 ^ 63 /\
  materialize (DropPrefix (Concat (New "ab") [New "cd"]) 3) = "d"%string.
Proof.
  split; [vm_compute; repeat split; auto|].
  split; [vm_compute; reflexivity|].
  split; [lia|].
  rewrite (DropPrefix_content (Concat (New "ab") [New "cd"]) 3
             ltac:(vm_compute; repeat split; auto) ltac:(vm_compute; reflexivity) ltac:(lia)).
  reflexivity.
Defined.

(** X4 ([Rope.DropPostfix]): on every consistent rope whose content fits
    in an int64 length, [DropPostfix k] for an int64 [k] materializes to
    the content from byte [k] on, the same as [DropPrefix k], since it
    calls the node's [dropPrefix]. *)
Theorem DropPostfix_content (r : Rope) (k : Z) :
  wf_rope r -> fits_rope r -> k < 2 ^ 63 ->
  materialize (DropPostfix r k) = str_from k (materialize r).
Proof. intros Hw Hf Hk. exact (proj2 (proj2 (DropPostfix_ok r k Hw Hf Hk))). Qed.

Lemma DropPostfix_content_witness :
  wf_rope (Concat (New "ab") [New "cd"]) /\ fits_rope (Concat (New "ab") [New "cd"]) /\
  1 < 2 ^ 63 /\
  materialize (DropPostfix (Concat (New "ab") [New "cd"]) 1) = "bcd"%string.
Proof.
  split; [vm_compute; repeat split; auto|].
  split; [vm_compute; reflexivity|].
  split; [lia|].
  rewrite (DropPostfix_content (Concat (New "ab") [New "cd"]) 1
             ltac:(vm_compute; repeat split; auto) ltac:(vm_compute; reflexivity) ltac:(lia)).
  reflexivity.
Defined.

(** X5 ([Rope.Slice]): on a consistent rope whose content fits in an
    int64 length, with an int64 [end], [Slice start end] is empty when
    [max start 0 >= end], and otherwise materializes to the content from
    byte [end + max start 0] on. *)
Theorem Slice_content (r : Rope) (start end_ : Z) :
  wf_rope r -> fits_rope r -> end_ < 2 ^ 63 ->
  materialize (Slice r start end_) =
    (if Z.max start 0 >=? end_ then ""%string
     else str_from (end_ + Z.max start 0) (materialize r)).
Proof. exact (Slice_materialize r start end_). Qed.

Lemma Slice_content_witness :
  wf_rope (Concat (New "abc") [New "def"]) /\ fits_rope (Concat (New "abc") [New "def"]) /\
  3 < 2 ^ 63 /\
  materialize (Slice (Concat (New "abc") [New "def"]) 1 3) = "ef"%string.
Proof.
  split; [vm_compute; repeat split; auto|].
  split; [vm_compute; reflexivity|].
  split; [lia|].
  rewrite (Slice_content (Concat (New "abc") [New "def"]) 1 3
             ltac:(vm_compute; repeat split; auto) ltac:(vm_compute; reflexivity) ltac:(lia)).
  reflexivity.
Defined.

(** X6 ([Rope.Len]): on a consistent rope whose content fits in an int64
    length, [Len] is the number of bytes the rope materializes to (0 for
    the nil rope). *)
Theorem Len_content (r : Rope) :
  wf_rope r -> fits_rope r -> Len r = Z.of_nat (String.length (materialize r)).
Proof. exact (Len_materialize r). Qed.

Lemma Len_content_witness :
  wf_rope (Concat (New "abc") [New "de"; None; New "f"]) /\
  fits_rope (Concat (New "abc") [New "de"; None; New "f"]) /\
  Len (Concat (New "abc") [New "de"; None; New "f"]) = 6.
Proof.
  split; [vm_compute; repeat split; auto|].
  split; [vm_compute; reflexivity|].
  rewrite (Len_content (Concat (New "abc") [New "de"; None; New "f"])
             ltac:(vm_compute; repeat split; auto) ltac:(vm_compute; reflexivity)).
  reflexivity.
Defined.

(** X7 (variadic [Rope.Concat]): for every rope and list of ropes, with
    nil ropes anywhere, [Concat] materializes to the concatenation of
    all their contents in order. *)
Theorem Concat_content (r : Rope) (rhs : list Rope) :
  materialize (Concat r rhs) = (materialize r ++ strings_concat (map materialize rhs))%string.
Proof. exact (Concat_materialize r rhs). Qed.

(** X8 ([Rope.Concat] and nil): [Concat] returns the nil rope exactly
    when the receiver and every argument are nil. *)
Theorem Concat_None_iff (r : Rope) (rhs : list Rope) :
  Concat r rhs = None <-> (r = None /\ Forall (fun x => x = None) rhs).
Proof. exact (Concat_nil r rhs). Qed.

(** X9 ([extendFibs]): from a strictly increasing, Fibonacci-like cache
    of at least two elements starting at 1 or more, and a target [N <=
    2^62], so that no int64 sum wraps, [extendFibs] appends sums of the
    last two elements and stops at the first one [>= N]: the result keeps
    the old cache as a prefix, is still strictly increasing and
    Fibonacci-like, ends with an element [>= N], and when it appended
    anything the element before the last is [< N]. *)
Theorem extendFibs_extends (cache : list Z) (N : Z) :
  strictly_increasing cache = true -> fib_like cache = true ->
  (2 <= List.length cache)%nat -> 1 <= hd 0 cache -> N <= 2 ^ 62 ->
  exists ext,
    extendFibs cache N = Ok (cache ++ ext) /\
    strictly_increasing (cache ++ ext) = true /\
    fib_like (cache ++ ext) = true /\
    N <= last (cache ++ ext) 0 /\
    (ext <> [] -> nth (List.length (cache ++ ext) - 2) (cache ++ ext) 0 < N).
Proof. exact (extendFibs_spec cache N). Qed.

Lemma extendFibs_extends_witness :
  strictly_increasing [1; 2] = true /\ fib_like [1; 2] = true /\
  (2 <= List.length [1; 2])%nat /\ 1 <= hd 0 [1; 2] /\ 20 <= 2 ^ 62 /\
  exists ext,
    extendFibs [1; 2] 20 = Ok ([1; 2] ++ ext) /\
    strictly_increasing ([1; 2] ++ ext) = true /\
    fib_like ([1; 2] ++ ext) = true /\
    20 <= last ([1; 2] ++ ext) 0 /\
    (ext <> [] -> nth (List.length ([1; 2] ++ ext) - 2) ([1; 2] ++ ext) 0 < 20).
Proof.
  split; [reflexivity|]. split; [reflexivity|]. split; [simpl; lia|].
  split; [simpl; lia|]. split; [lia|].
  exact (extendFibs_extends [1; 2] 20 eq_refl eq_refl ltac:(simpl; lia) ltac:(simpl; lia)
           ltac:(lia)).
Defined.

(** X10 ([extendFibs] on a short cache): [extendFibs] panics on a cache
    of fewer than two elements, reading [cache[len-2]] out of range. *)
Theorem extendFibs_short_panics (cache : list Z) (N : Z) :
  (List.length cache < 2)%nat -> extendFibs cache N = Panic.
Proof. exact (extendFibs_short cache N). Qed.

Lemma extendFibs_short_panics_witness :
  (List.length [1] < 2)%nat /\ extendFibs [1] 5 = Panic.
Proof.
  split; [simpl; lia|]. exact (extendFibs_short_panics [1] 5 ltac:(simpl; lia)).
Defined.

(** X11 (reader on a concat whose left child is a leaf): for every
    buffer size [k >= 1], reading a concat node with left leaf [a] to the
    end yields exactly [a] and then EOF; the right subtree is never
    read. *)
Theorem Reader_left_leaf_only (a : string) (R : node) (sp rl d : Z) (k fuel : nat) :
  (1 <= k)%nat -> (String.length a < fuel)%nat ->
  read_all fuel k (Some (concat (leaf a) R sp rl d)) = Ok a.
Proof. exact (Reader_concat_leaf a R sp rl d k fuel). Qed.

Lemma Reader_left_leaf_only_witness :
  (1 <= 2)%nat /\ (String.length "abc" < 10)%nat /\
  read_all 10 2 (Some (concat (leaf "abc") (leaf "xyz") 3 3 1)) = Ok "abc"%string.
Proof.
  split; [lia|]. split; [simpl; lia|].
  exact (Reader_left_leaf_only "abc" (leaf "xyz") 3 3 1 2 10 ltac:(lia) ltac:(simpl; lia)).
Defined.

(** X12 (reader on a leaf or on nil): for every buffer size [k >= 1],
    reading a rope whose root is a leaf panics once the leaf is
    consumed, and reading the nil rope panics, both by slicing the empty
    stack in [nextNode]. *)
Theorem Reader_leaf_or_nil_panics (a : string) (k fuel : nat) :
  (1 <= k)%nat -> (String.length a < fuel)%nat ->
  read_all fuel k (Some (leaf a)) = Panic /\ read_all fuel k None = Panic.
Proof. exact (Reader_leaf a k fuel). Qed.

Lemma Reader_leaf_or_nil_panics_witness :
  (1 <= 3)%nat /\ (String.length "hello" < 10)%nat /\
  read_all 10 3 (Some (leaf "hello")) = Panic /\ read_all 10 3 None = Panic.
Proof.
  split; [lia|]. split; [simpl; lia|].
  exact (Reader_leaf_or_nil_panics "hello" 3 10 ltac:(lia) ltac:(simpl; lia)).
Defined.

(** X13 (reader on a deeper left spine): when the left child of the root
    is itself a concat whose left child is a non-empty leaf [a], the
    reader never reaches EOF: for every number [n] of [Read] calls with a
    buffer of [k >= 1] bytes, each call returns non-empty bytes, and the
    bytes returned are copies of [a] followed by a prefix of [a]: it keeps
    rereading [a]. *)
Theorem Reader_left_spine_never_ends (a : string) (M R : node)
    (sp rl d sp' rl' d' : Z) (k n : nat) :
  a <> ""%string -> (1 <= k)%nat ->
  exists out,
    (r <- NewReader (Some (concat (concat (leaf a) M sp' rl' d') R sp rl d)) ;;
     reads n k r) = Ok out /\
    List.length out = n /\
    Forall (fun x => exists s, x = RData s /\ s <> ""%string) out /\
    exists e p, (p <= String.length a)%nat /\
      read_data out = (strings_concat (repeat a e) ++ substring 0 p a)%string.
Proof.
  intros Ha Hk.
  destruct (reads_left_spine a M R sp rl d sp' rl' d' k Ha Hk n [] 0 ltac:(lia))
    as (out & Hrun & Hlen & Hall & e & p & Hp & Hdata).
  exists out. split; [exact Hrun|]. split; [exact Hlen|]. split; [exact Hall|].
  exists e, p. split; [exact Hp|]. rewrite substring_zero_len in Hdata. exact Hdata.
Qed.

Lemma Reader_left_spine_never_ends_witness :
  "a"%string <> ""%string /\ (1 <= 1)%nat /\
  exists out,
    (r <- NewReader (Some (concat (concat (leaf "a") (leaf "b") 1 1 1) (leaf "c") 2 1 2)) ;;
     reads 5 1 r) = Ok out /\
    List.length out = 5%nat /\
    Forall (fun x => exists s, x = RData s /\ s <> ""%string) out /\
    exists e p, (p <= String.length "a")%nat /\
      read_data out = (strings_concat (repeat "a"%string e) ++ substring 0 p "a")%string.
Proof.
  split; [discriminate|]. split; [lia|].
  exact (Reader_left_spine_never_ends "a" (leaf "b") (leaf "c") 2 1 2 1 1 1 1 5
           ltac:(discriminate) ltac:(lia)).
Defined.

(** X14 ([dropPrefix] and depth): on a node whose cached depths are the
    exact [1 + max] of its children's and fit in a byte, [dropPrefix k]
    gives a node with the same property and a depth no greater. *)
Theorem dropPrefix_depth_le (n : node) (k : Z) :
  dwf n -> dwf (dropPrefix k n) /\ depth (dropPrefix k n) <= depth n.
Proof. intros Hn. exact (dropPrefix_depth n Hn k). Qed.

Lemma dropPrefix_depth_le_witness :
  dwf (conc (conc (leaf "a") (leaf "b") 0 0) (leaf "c") 0 0) /\
  depth (dropPrefix 1 (conc (conc (leaf "a") (leaf "b") 0 0) (leaf "c") 0 0))
    <= depth (conc (conc (leaf "a") (leaf "b") 0 0) (leaf "c") 0 0).
Proof.
  assert (H : dwf (conc (conc (leaf "a") (leaf "b") 0 0) (leaf "c") 0 0))
    by (vm_compute; repeat split; auto; discriminate).
  split; [exact H|].
  exact (proj2 (dropPrefix_depth_le _ 1 H)).
Defined.

(** X15 ([dropPostfix] and depth): on a node whose cached depths are the
    exact [1 + max] of its children's and fit in a byte, [dropPostfix k]
    gives a node with the same property and a depth no greater. *)
Theorem dropPostfix_depth_le (n : node) (k : Z) :
  dwf n -> dwf (dropPostfix k n) /\ depth (dropPostfix k n) <= depth n.
Proof. intros Hn. exact (dropPostfix_depth n Hn k). Qed.

Lemma dropPostfix_depth_le_witness :
  dwf (conc (leaf "a") (conc (leaf "b") (leaf "c") 0 0) 0 0) /\
  depth (dropPostfix 2 (conc (leaf "a") (conc (leaf "b") (leaf "c") 0 0) 0 0))
    <= depth (conc (leaf "a") (conc (leaf "b") (leaf "c") 0 0) 0 0).
Proof.
  assert (H : dwf (conc (leaf "a") (conc (leaf "b") (leaf "c") 0 0) 0 0))
    by (vm_compute; repeat split; auto; discriminate).
  split; [exact H|].
  exact (proj2 (dropPostfix_depth_le _ 2 H)).
Defined.

(** X16 (the rebalancing body keeps the length): whatever the [Debug]
    setting and the Fibonacci cache, when the body of [Rebalance] after
    its cache lookup finishes on a consistent rope whose content fits in
    an int64 length, the result has the same [Len]. *)
Theorem rebalance_with_keeps_Len (debug : bool) (fibs : list Z) (r r' : Rope) :
  wf_rope r -> fits_rope r -> rebalance_with debug fibs r = Ok r' -> Len r' = Len r.
Proof.
  intros Hr Fr Hreb. exact (proj2 (proj2 (rebalance_with_ok debug fibs r r' Hr Fr Hreb))).
Qed.

Lemma rebalance_with_keeps_Len_witness :
  wf_rope (Concat (New "ab") [New "c"; New "de"]) /\
  fits_rope (Concat (New "ab") [New "c"; New "de"]) /\
  exists r', rebalance_with false fibCache0 (Concat (New "ab") [New "c"; New "de"]) = Ok r' /\
             Len r' = Len (Concat (New "ab") [New "c"; New "de"]).
Proof.
  assert (H : wf_rope (Concat (New "ab") [New "c"; New "de"]))
    by (vm_compute; repeat split; auto).
  assert (F : fits_rope (Concat (New "ab") [New "c"; New "de"]))
    by (vm_compute; reflexivity).
  split; [exact H|]. split; [exact F|].
  destruct (rebalance_with false fibCache0 (Concat (New "ab") [New "c"; New "de"])) as [r'| |] eqn:E;
    [|vm_compute in E; discriminate E|vm_compute in E; discriminate E].
  exists r'. split; [reflexivity|].
  exact (rebalance_with_keeps_Len false fibCache0 _ r' H F E).
Defined.

(** X17 (successive [DropPrefix] calls compose): on a consistent rope
    whose content fits in an int64 length, dropping [b] bytes and then
    [a] bytes, both non-negative with [b + a] an int64, leaves the same
    content as dropping [b + a] bytes at once. *)
Theorem DropPrefix_DropPrefix (r : Rope) (a b : Z) :
  wf_rope r -> fits_rope r -> 0 <= a -> 0 <= b -> b + a < 2 ^ 63 ->
  materialize (DropPrefix (DropPrefix r b) a) = materialize (DropPrefix r (b + a)).
Proof.
  intros Hr Fr Ha Hb Hab.
  destruct (DropPrefix_ok r b Hr Fr ltac:(lia)) as (Hw1 & Fr1 & Hc1).
  rewrite (proj2 (proj2 (DropPrefix_ok _ a Hw1 Fr1 ltac:(lia)))), Hc1.
  rewrite (proj2 (proj2 (DropPrefix_ok r (b + a) Hr Fr Hab))).
  apply str_from_str_from; assumption.
Qed.

Lemma DropPrefix_DropPrefix_witness :
  wf_rope (Concat (New "abc") [New "def"]) /\ fits_rope (Concat (New "abc") [New "def"]) /\
  0 <= 2 /\ 0 <= 3 /\ 3 + 2 < 2 ^ 63 /\
  materialize (DropPrefix (DropPrefix (Concat (New "abc") [New "def"]) 3) 2) =
  materialize (DropPrefix (Concat (New "abc") [New "def"]) (3 + 2)).
Proof.
  assert (H : wf_rope (Concat (New "abc") [New "def"])) by (vm_compute; repeat split; auto).
  assert (F : fits_rope (Concat (New "abc") [New "def"])) by (vm_compute; reflexivity).
  split; [exact H|]. split; [exact F|]. split; [lia|]. split; [lia|]. split; [lia|].
  exact (DropPrefix_DropPrefix _ 2 3 H F ltac:(lia) ltac:(lia) ltac:(lia)).
Defined.

